(** * The prompt matcher of the OpenFGA modeling MCP server

    A shallow embedding of [prompt-matcher.ts] (class [PromptMatcher]) and of
    the [resources/read] handler of the server, followed by the properties of
    the matching engine.

    - JavaScript strings are Rocq [string]s; [String.prototype.includes],
      [startsWith] and [replace] are written out below. A character
      outside ASCII is held as the bytes of its UTF-8 form, in which
      containment, prefixes and suffixes of well-formed strings are those of
      the strings of UTF-16 code units; [utf16Length] counts the code
      units.
    - [String.prototype.toLowerCase] is a built-in whose table is the Unicode
      character database: the engine is developed in a [Section] over an
      arbitrary [toLowerCase : string -> string], and [asciiToLowerCase] is its
      behaviour on strings of ASCII code units, used for the configured
      (all-ASCII) rule set.
    - [console.error], [process.cwd] and [fs.readFile] act on an explicit
      [World]; a method is a function from the world to an [Outcome] (a
      returned value or a thrown error) and the next world.
    - The object graph behind [this.rules] (an array of shared rule objects)
      is modelled in [Module Heap] for the one property that depends on
      aliasing. *)

From Stdlib Require Import Ascii List Bool Arith Lia Permutation.
From stdpp Require Import gmap strings list.
Import ListNotations.

(** ** JavaScript string primitives *)

Module JsString.

(** [s.startsWith(p)] *)
Fixpoint startsWith (s p : string) {struct p} : bool :=
  match p with
  | EmptyString => true
  | String c p' =>
      match s with
      | EmptyString => false
      | String d s' => Ascii.eqb d c && startsWith s' p'
      end
  end.

(** [s.includes(p)]: [p] occurs in [s] at some position; the empty string
    occurs in every string. *)
Fixpoint includes (s p : string) : bool :=
  startsWith s p ||
  match s with
  | EmptyString => false
  | String _ s' => includes s' p
  end.

(** Removes [n] leading code units, [s.slice(n)]. *)
Fixpoint slice (n : nat) (s : string) : string :=
  match n, s with
  | O, _ => s
  | S n', String _ s' => slice n' s'
  | S _, EmptyString => EmptyString
  end.

(** [s.replace(p, r)] for a string pattern [p] and a replacement [r]
    without [$] sequences: the first occurrence of [p] is replaced. *)
Fixpoint replace (s p r : string) : string :=
  if startsWith s p then r +:+ slice (String.length p) s
  else match s with
       | EmptyString => EmptyString
       | String c s' => String c (replace s' p r)
       end.

(** Lower-casing of an ASCII code unit: A-Z go to a-z. *)
Definition asciiLower (c : ascii) : ascii :=
  let n := nat_of_ascii c in
  if (65 <=? n) && (n <=? 90) then ascii_of_nat (n + 32) else c.

(** [s.toLowerCase()] on a string of ASCII code units. Every byte outside
    [A]-[Z] is left as it is, so this is also [toLowerCase] on a string
    whose characters outside ASCII are their own lower case, as white space
    is. *)
Fixpoint asciiToLowerCase (s : string) : string :=
  match s with
  | EmptyString => EmptyString
  | String c s' => String (asciiLower c) (asciiToLowerCase s')
  end.

(** [s.length]: the number of UTF-16 code units of a string, counted on
    its UTF-8 bytes. A continuation byte adds nothing, the first byte of a
    four-byte form stands for a surrogate pair, every other first byte for
    one code unit. *)
Definition utf16Units (c : ascii) : nat :=
  let n := nat_of_ascii c in
  if n <? 128 then 1
  else if n <? 192 then 0
  else if n <? 240 then 1
  else 2.

Fixpoint utf16Length (s : string) : nat :=
  match s with
  | EmptyString => 0
  | String c s' => utf16Units c + utf16Length s'
  end.

(** The string with the given bytes. *)
Definition utf8 (bytes : list nat) : string :=
  String.string_of_list_ascii (map ascii_of_nat bytes).

(** The white space and line terminator code points of ECMAScript, the
    characters [trim] removes, each in its UTF-8 form. *)
Definition jsWhiteSpace : list string :=
  [ utf8 [9];               (* U+0009 CHARACTER TABULATION *)
    utf8 [10];              (* U+000A LINE FEED *)
    utf8 [11];              (* U+000B LINE TABULATION *)
    utf8 [12];              (* U+000C FORM FEED *)
    utf8 [13];              (* U+000D CARRIAGE RETURN *)
    utf8 [32];              (* U+0020 SPACE *)
    utf8 [194; 160];        (* U+00A0 NO-BREAK SPACE *)
    utf8 [225; 154; 128];   (* U+1680 OGHAM SPACE MARK *)
    utf8 [226; 128; 128];   (* U+2000 EN QUAD *)
    utf8 [226; 128; 129];   (* U+2001 EM QUAD *)
    utf8 [226; 128; 130];   (* U+2002 EN SPACE *)
    utf8 [226; 128; 131];   (* U+2003 EM SPACE *)
    utf8 [226; 128; 132];   (* U+2004 THREE-PER-EM SPACE *)
    utf8 [226; 128; 133];   (* U+2005 FOUR-PER-EM SPACE *)
    utf8 [226; 128; 134];   (* U+2006 SIX-PER-EM SPACE *)
    utf8 [226; 128; 135];   (* U+2007 FIGURE SPACE *)
    utf8 [226; 128; 136];   (* U+2008 PUNCTUATION SPACE *)
    utf8 [226; 128; 137];   (* U+2009 THIN SPACE *)
    utf8 [226; 128; 138];   (* U+200A HAIR SPACE *)
    utf8 [226; 128; 168];   (* U+2028 LINE SEPARATOR *)
    utf8 [226; 128; 169];   (* U+2029 PARAGRAPH SEPARATOR *)
    utf8 [226; 128; 175];   (* U+202F NARROW NO-BREAK SPACE *)
    utf8 [226; 129; 159];   (* U+205F MEDIUM MATHEMATICAL SPACE *)
    utf8 [227; 128; 128];   (* U+3000 IDEOGRAPHIC SPACE *)
    utf8 [239; 187; 191] ]. (* U+FEFF ZERO WIDTH NO-BREAK SPACE *)

(** The string without its first character, when that is white space. *)
Definition stripWhiteSpace (s : string) : option string :=
  match List.find (fun ws => startsWith s ws) jsWhiteSpace with
  | Some ws => Some (slice (String.length ws) s)
  | None => None
  end.

(** [s.trimStart()]: white space is removed from the front as long as there
    is some; the length of the string bounds the number of removals. *)
Fixpoint trimStartFrom (fuel : nat) (s : string) : string :=
  match fuel with
  | O => s
  | S fuel' =>
      match stripWhiteSpace s with
      | Some s' => trimStartFrom fuel' s'
      | None => s
      end
  end.

Definition trimStart (s : string) : string :=
  trimStartFrom (String.length s) s.

(** A string of white space only, the empty string included: nothing is
    left when the white space at its front is removed. *)
Definition whitespaceOnly (s : string) : bool :=
  String.eqb (trimStart s) "".

(** [s.trimEnd()]: the string without its longest end of white space
    only. *)
Fixpoint trimEnd (s : string) : string :=
  match s with
  | EmptyString => EmptyString
  | String c s' => if whitespaceOnly s then EmptyString else String c (trimEnd s')
  end.

(** [s.trim()] *)
Definition trim (s : string) : string := trimEnd (trimStart s).

(** An ASCII letter, and a string none of whose bytes is one. *)
Definition isAsciiLetter (c : ascii) : bool :=
  let n := nat_of_ascii c in
  ((65 <=? n) && (n <=? 90)) || ((97 <=? n) && (n <=? 122)).

Fixpoint noAsciiLetter (s : string) : bool :=
  match s with
  | EmptyString => true
  | String c s' => negb (isAsciiLetter c) && noAsciiLetter s'
  end.

(** Membership of a code unit in a string. *)
Fixpoint occurs (c : ascii) (s : string) : bool :=
  match s with
  | EmptyString => false
  | String d s' => Ascii.eqb d c || occurs c s'
  end.

End JsString.
Import JsString.

(** ** Errors, the world and the effect monad *)

(** An error object: [name] and [message] of [Error], and the properties a
    Node.js system error adds ([code], [syscall], [path]). *)
Record JsError := mkJsError {
  err_name : string;
  err_message : string;
  err_code : option string;
  err_syscall : option string;
  err_path : option string
}.

(** [new Error(message)] *)
Definition new_Error (message : string) : JsError :=
  {| err_name := "Error"; err_message := message;
     err_code := None; err_syscall := None; err_path := None |}.

(** [Error.prototype.toString], which a template literal [`${error}`]
    applies to an error object. *)
Definition Error_toString (e : JsError) : string :=
  if String.eqb (err_name e) "" then err_message e
  else if String.eqb (err_message e) "" then err_name e
  else err_name e +:+ ": " +:+ err_message e.

(** The lines written by [console.error], kept as data. *)
Inductive LogEntry : Type :=
| DebugMatchingQuery (query : string)
| DebugPatternMatchFound (pattern promptFile : string)
| DebugNoPatternMatch (query : string)
| DebugLoadingPromptFile (filePath : string)
| DebugLoadedPromptFile (promptFile : string) (chars : nat)
| ErrorFailedToLoad (promptFile : string) (error : JsError).

(** An entry of the file system as [fs.readFile(path, 'utf-8')] sees it:
    a file with its text, or something the read rejects with an error of its
    own (a directory, a file without read permission). *)
Inductive FileEntry : Type :=
| File (text : string)
| Unreadable (error : JsError).

(** The error [fs.readFile] rejects with when nothing exists at [path]. *)
Definition ENOENT (path : string) : JsError :=
  {| err_name := "Error";
     err_message := "ENOENT: no such file or directory, open '" +:+ path +:+ "'";
     err_code := Some "ENOENT";
     err_syscall := Some "open";
     err_path := Some path |}.

(** What a method can observe and change outside its object: the working
    directory, the file system (the document store) and the standard error
    stream. *)
Record World := mkWorld {
  cwd : string;
  files : gmap string FileEntry;
  console : list LogEntry
}.

Inductive Outcome (A : Type) : Type :=
| Returned (value : A)
| Thrown (error : JsError).
Arguments Returned {A} value.
Arguments Thrown {A} error.

Definition Eff (A : Type) : Type := World -> Outcome A * World.

Definition ret {A} (a : A) : Eff A := fun w => (Returned a, w).

Definition throw {A} (e : JsError) : Eff A := fun w => (Thrown e, w).

Definition bind {A B} (m : Eff A) (k : A -> Eff B) : Eff B :=
  fun w =>
    match m w with
    | (Returned a, w') => k a w'
    | (Thrown e, w') => (Thrown e, w')
    end.

(** [try { m } catch (error) { h error }] *)
Definition try_catch {A} (m : Eff A) (h : JsError -> Eff A) : Eff A :=
  fun w =>
    match m w with
    | (Returned a, w') => (Returned a, w')
    | (Thrown e, w') => h e w'
    end.

Definition console_error (l : LogEntry) : Eff unit :=
  fun w => (Returned tt,
            {| cwd := cwd w; files := files w; console := console w ++ [l] |}).

Definition process_cwd : Eff string := fun w => (Returned (cwd w), w).

Definition fs_readFile (filePath : string) : Eff string :=
  fun w =>
    match files w !! filePath with
    | Some (File text) => (Returned text, w)
    | Some (Unreadable e) => (Thrown e, w)
    | None => (Thrown (ENOENT filePath), w)
    end.

Declare Scope eff_scope.
Delimit Scope eff_scope with eff.
Notation "'let*' x := m 'in' k" := (bind m (fun x => k))
  (at level 10, x name, m at level 100, k at level 200) : eff_scope.
Notation "m >> k" := (bind m (fun _ => k))
  (at level 100, right associativity) : eff_scope.

(** The value or error a computation ends with, and the world it leaves. *)
Definition outcome {A} (m : Eff A) (w : World) : Outcome A := fst (m w).
Definition world_after {A} (m : Eff A) (w : World) : World := snd (m w).

(** ** [path.join] (POSIX)

    The Node.js built-in, written on path segments: the arguments that are
    not empty are joined with [/] and the result is normalized, which drops
    empty and [.] segments and lets a [..] segment remove the segment before
    it. *)

Module Path.

(** The segments of a path: the pieces between its [/] separators. *)
Fixpoint split (s : string) : list string :=
  match s with
  | EmptyString => [EmptyString]
  | String c s' =>
      if Ascii.eqb c "/" then EmptyString :: split s'
      else match split s' with
           | seg :: rest => String c seg :: rest
           | [] => [String c EmptyString]
           end
  end.

(** One step of [normalizeString]; [res] holds the segments kept so far,
    the last one first. *)
Definition step (allowAboveRoot : bool) (res : list string) (seg : string)
  : list string :=
  if String.eqb seg "" || String.eqb seg "." then res
  else if String.eqb seg ".." then
    match res with
    | last :: res' =>
        if String.eqb last ".."
        then (if allowAboveRoot then ".." :: res else res)
        else res'
    | [] => if allowAboveRoot then [".."] else []
    end
  else seg :: res.

Definition normalizeSegments (allowAboveRoot : bool) (segs : list string)
  : list string :=
  fold_left (step allowAboveRoot) segs [].

Definition normalizeString (path : string) (allowAboveRoot : bool) : string :=
  String.concat "/" (rev (normalizeSegments allowAboveRoot (split path))).

Definition isAbsolute (path : string) : bool := startsWith path "/".

Fixpoint endsWithSeparator (path : string) : bool :=
  match path with
  | EmptyString => false
  | String c EmptyString => Ascii.eqb c "/"
  | String _ path' => endsWithSeparator path'
  end.

Definition normalize (path : string) : string :=
  if String.eqb path "" then "."
  else
    let absolute := isAbsolute path in
    let trailingSeparator := endsWithSeparator path in
    let p := normalizeString path (negb absolute) in
    if String.eqb p "" then
      (if absolute then "/" else if trailingSeparator then "./" else ".")
    else
      let p' := if trailingSeparator then p +:+ "/" else p in
      if absolute then "/" +:+ p' else p'.

Definition join (args : list string) : string :=
  match List.filter (fun arg => negb (String.eqb arg "")) args with
  | [] => "."
  | parts => normalize (String.concat "/" parts)
  end.

End Path.

(** ** The data model of [prompt-matcher.ts] *)

Record PromptRule := mkPromptRule {
  patterns : list string;
  promptFile : string;
  description : string
}.

(** The state of a [PromptMatcher] instance: its private field [rules]. *)
Record PromptMatcher := mkPromptMatcher {
  rules : list PromptRule
}.

(** [new PromptMatcher()]: the field initializer of the class. *)
Definition PromptMatcher_new : PromptMatcher :=
  {| rules :=
       [ {| patterns :=
              [ "authorization model";
                "auth model";
                "access control";
                "rbac";
                "abac";
                "permission";
                "role based";
                "attribute based";
                "authentication";
                "auth";
                "security model";
                "openfga";
                "openfga model";
                "openfga authorization";
                "openfga auth";
                "openfga dsl";
                "openfga schema";
                "openfga relations";
                "openfga types";
                "zanzibar";
                "relationship based access control";
                "rebac";
                "fine grained access control";
                "fga";
                "tuple";
                "relationship tuple";
                "authorization tuple";
                "user relation object";
                "permission check";
                "can user";
                "access check" ];
            promptFile := "authorization-model.md";
            description := "Author authorization models with OpenFGA" |} ] |}.

(** The result type of [getContextForQuery]. *)
Record QueryContext := mkQueryContext {
  rule : option PromptRule;
  content : option string;
  matchFound : bool
}.

(** ** The methods of [PromptMatcher] *)

Section Matcher.

Variable toLowerCase : string -> string.

Open Scope eff_scope.

(** The inner loop of [findBestMatch]: the first pattern of the list that
    the lower-cased query includes. *)
Fixpoint scanPatterns (lowercaseQuery : string) (ps : list string)
  : option string :=
  match ps with
  | [] => None
  | pattern :: ps' =>
      if includes lowercaseQuery (toLowerCase pattern) then Some pattern
      else scanPatterns lowercaseQuery ps'
  end.

(** The outer loop: the first rule one of whose patterns is included,
    with that pattern. *)
Fixpoint scanRules (lowercaseQuery : string) (rs : list PromptRule)
  : option (string * PromptRule) :=
  match rs with
  | [] => None
  | r :: rs' =>
      match scanPatterns lowercaseQuery (patterns r) with
      | Some pattern => Some (pattern, r)
      | None => scanRules lowercaseQuery rs'
      end
  end.

Definition findBestMatch (this : PromptMatcher) (query : string)
  : Eff (option PromptRule) :=
  let lowercaseQuery := toLowerCase query in
  console_error (DebugMatchingQuery query) >>
  match scanRules lowercaseQuery (rules this) with
  | Some (pattern, r) =>
      console_error (DebugPatternMatchFound pattern (promptFile r)) >>
      ret (Some r)
  | None =>
      console_error (DebugNoPatternMatch query) >>
      ret None
  end.

(** [[...this.rules]]: as a value, the sequence of the rules. *)
Definition getAllRules (this : PromptMatcher) : list PromptRule :=
  rules this.

Definition loadPromptContent (this : PromptMatcher) (promptFile : string)
  : Eff string :=
  let* dir := process_cwd in
  let promptsDir := Path.join [dir; "prompts"] in
  let filePath := Path.join [promptsDir; promptFile] in
  console_error (DebugLoadingPromptFile filePath) >>
  try_catch
    (let* content := fs_readFile filePath in
     console_error (DebugLoadedPromptFile promptFile (utf16Length content)) >>
     ret content)
    (fun error =>
       console_error (ErrorFailedToLoad promptFile error) >>
       throw (new_Error ("Failed to load prompt file " +:+ promptFile
                         +:+ ": " +:+ Error_toString error))).

Definition getContextForQuery (this : PromptMatcher) (query : string)
  : Eff QueryContext :=
  let* found := findBestMatch this query in
  match found with
  | None => ret {| rule := None; content := None; matchFound := false |}
  | Some r =>
      try_catch
        (let* text := loadPromptContent this (promptFile r) in
         ret {| rule := Some r; content := Some text; matchFound := true |})
        (fun error =>
           throw (new_Error ("Error loading context: "
                             +:+ Error_toString error)))
  end.

End Matcher.

(** ** The [resources/read] handler of the server

    The request handler registered for [ReadResourceRequestSchema] in
    [setupResourceHandlers]. The calls to the server's [Logger] only record
    the request and the response; they are left out, so the model gives
    what the handler returns or throws, and of the lines written only those
    of the [PromptMatcher]. *)

Record ResourceContent := mkResourceContent {
  uri : string;
  mimeType : string;
  text : string
}.

Record ReadResourceResult := mkReadResourceResult {
  contents : list ResourceContent
}.

Definition readResourceHandler (promptMatcher : PromptMatcher)
    (request_uri : string) : Eff ReadResourceResult :=
  (if negb (startsWith request_uri "prompt://") then
    throw (new_Error ("Unsupported URI scheme: " +:+ request_uri))
  else
    let promptFile := replace request_uri "prompt://" "" in
    try_catch
      (let* content := loadPromptContent promptMatcher promptFile in
       ret {| contents := [ {| uri := request_uri;
                               mimeType := "text/markdown";
                               text := content |} ] |})
      (fun error =>
         throw (new_Error ("Failed to read resource " +:+ request_uri
                           +:+ ": " +:+ Error_toString error))))%eff.

(** ** The object graph of a [PromptMatcher]

    In the running program [this.rules] is a reference to an array whose
    elements are references to rule objects, and the [patterns] field of a
    rule object is a reference to an array of strings. [getAllRules] copies
    the outer array only: the copy holds the same references. *)

Module Heap.

Definition loc := nat.

Inductive object : Type :=
| StringArray (elems : list string)
| RuleObject (patternsRef : loc) (promptFile description : string)
| RuleArray (elems : list loc).

Abbreviation heap := (gmap loc object).

(** A [PromptMatcher] instance: its field [rules] holds a reference. *)
Record PromptMatcherObject := mkPromptMatcherObject {
  rulesRef : loc
}.

Definition readStringArray (h : heap) (l : loc) : option (list string) :=
  match h !! l with
  | Some (StringArray ps) => Some ps
  | _ => None
  end.

(** The rule a reference denotes in a heap. *)
Definition readRule (h : heap) (l : loc) : option PromptRule :=
  match h !! l with
  | Some (RuleObject pl f d) =>
      match readStringArray h pl with
      | Some ps => Some {| patterns := ps; promptFile := f; description := d |}
      | None => None
      end
  | _ => None
  end.

Fixpoint readRuleList (h : heap) (ls : list loc) : option (list PromptRule) :=
  match ls with
  | [] => Some []
  | l :: ls' =>
      match readRule h l, readRuleList h ls' with
      | Some r, Some rs => Some (r :: rs)
      | _, _ => None
      end
  end.

(** The sequence of rules an array of rule references denotes. *)
Definition readRuleArray (h : heap) (a : loc) : option (list PromptRule) :=
  match h !! a with
  | Some (RuleArray ls) => readRuleList h ls
  | _ => None
  end.

(** The rule set a method of the instance finds when it follows
    [this.rules] in the heap as it is at the time of the call. *)
Definition snapshot (h : heap) (this : PromptMatcherObject)
  : option PromptMatcher :=
  option_map mkPromptMatcher (readRuleArray h (rulesRef this)).

(** [[...this.rules]]: a new array holding the references of [this.rules];
    the result is the reference of the new array and the extended heap. *)
Definition getAllRules (h : heap) (this : PromptMatcherObject)
  : option (loc * heap) :=
  match h !! rulesRef this with
  | Some (RuleArray ls) =>
      let a := fresh (dom h) in Some (a, <[a := RuleArray ls]> h)
  | _ => None
  end.

(** The methods that read the rule set, run on the heap. *)
Definition findBestMatch (toLowerCase : string -> string) (h : heap)
    (this : PromptMatcherObject) (query : string)
  : option (Eff (option PromptRule)) :=
  option_map (fun m => findBestMatch toLowerCase m query) (snapshot h this).

Definition getContextForQuery (toLowerCase : string -> string) (h : heap)
    (this : PromptMatcherObject) (query : string)
  : option (Eff QueryContext) :=
  option_map (fun m => getContextForQuery toLowerCase m query) (snapshot h this).

(** What a caller can do with an array [a] it holds: store anything in the
    array itself ([a[i] = x], [a.push(x)], [a.length = 0], [a.sort()] all
    end with some sequence of references in [a]) ... *)
Definition overwriteArray (h : heap) (a : loc) (elems : list loc) : heap :=
  <[a := RuleArray elems]> h.

(** ... or reach through an element: [a[i].patterns.push(p)]. *)
Definition pushPattern (h : heap) (a : loc) (i : nat) (p : string)
  : option heap :=
  match h !! a with
  | Some (RuleArray ls) =>
      match ls !! i with
      | Some l =>
          match h !! l with
          | Some (RuleObject pl _ _) =>
              match h !! pl with
              | Some (StringArray ps) => Some (<[pl := StringArray (ps ++ [p])]> h)
              | _ => None
              end
          | _ => None
          end
      | None => None
      end
  | _ => None
  end.

(** Allocation of the objects of a rule, of a rule list and of an
    instance: what the field initializer of the class builds. *)
Definition allocRule (h : heap) (r : PromptRule) : loc * heap :=
  let pl := fresh (dom h) in
  let h1 := <[pl := StringArray (patterns r)]> h in
  let l := fresh (dom h1) in
  (l, <[l := RuleObject pl (promptFile r) (description r)]> h1).

Fixpoint allocRules (h : heap) (rs : list PromptRule) : list loc * heap :=
  match rs with
  | [] => ([], h)
  | r :: rs' =>
      let '(l, h1) := allocRule h r in
      let '(ls, h2) := allocRules h1 rs' in
      (l :: ls, h2)
  end.

Definition newPromptMatcher (h : heap) (m : PromptMatcher)
  : PromptMatcherObject * heap :=
  let '(ls, h1) := allocRules h (rules m) in
  let a := fresh (dom h1) in
  ({| rulesRef := a |}, <[a := RuleArray ls]> h1).

End Heap.

(** ** Notions used to state the properties *)

(** [p] occurs in [s] as a contiguous run of code units. *)
Definition substring_of (p s : string) : Prop :=
  exists a b, s = a +:+ p +:+ b.

(** Two worlds that agree on everything a method can read: the working
    directory and the file system (the document store). *)
Definition same_store (w w' : World) : Prop :=
  cwd w' = cwd w /\ files w' = files w.

(** An error carries a path when its [path] property is that path or its
    message contains it. *)
Definition carriesPath (e : JsError) (path : string) : Prop :=
  err_path e = Some path \/ substring_of path (err_message e).

(** An error carries another one when its message contains the text of the
    other. *)
Definition carriesError (e cause : JsError) : Prop :=
  substring_of (Error_toString cause) (err_message e).

(** Notions for [path.join]. *)

(** A string without a path separator. *)
Definition noSlash (s : string) : Prop := occurs "/" s = false.

(** The stacks [normalizeSegments] builds: names, above a run of [..]
    segments that is empty unless going above the root is allowed. *)
Fixpoint wfStack (allow : bool) (st : list string) : Prop :=
  match st with
  | [] => True
  | s :: st' =>
      s <> "" /\ s <> "." /\
      (s = ".." -> allow = true /\ (st' = [] \/ exists st'', st' = ".." :: st'')) /\
      wfStack allow st'
  end.

(** A path with its parts: an optional leading separator and a stack of
    kept segments. *)
Definition render (absolute : bool) (st : list string) : string :=
  (if absolute then "/" else "") +:+ String.concat "/" (rev st).

Section Notions.

Variable toLowerCase : string -> string.

(** [P] is a case-insensitive substring of [Q]: the lower-cased [P] occurs
    in the lower-cased [Q]. *)
Definition ci_substring (P Q : string) : Prop :=
  substring_of (toLowerCase P) (toLowerCase Q).

(** Some pattern of the rule is included in the lower-cased query. *)
Definition ruleMatches (lowercaseQuery : string) (r : PromptRule) : bool :=
  existsb (fun p => includes lowercaseQuery (toLowerCase p)) (patterns r).

(** The position, in declaration order, of the first rule that matches. *)
Fixpoint matchIndex (lowercaseQuery : string) (rs : list PromptRule)
  : option nat :=
  match rs with
  | [] => None
  | r :: rs' =>
      if ruleMatches lowercaseQuery r then Some 0
      else option_map S (matchIndex lowercaseQuery rs')
  end.

End Notions.

(** The rule at a position, when there is a position. *)
Definition ruleAt (rs : list PromptRule) (i : option nat) : option PromptRule :=
  match i with
  | Some n => rs !! n
  | None => None
  end.

(** The path [loadPromptContent] reads for a prompt file. *)
Definition promptPath (dir promptFile : string) : string :=
  Path.join [Path.join [dir; "prompts"]; promptFile].

(** What [fs.readFile] settles with for a path. *)
Definition readResult (w : World) (filePath : string) : JsError + string :=
  match files w !! filePath with
  | Some (File text) => inr text
  | Some (Unreadable e) => inl e
  | None => inl (ENOENT filePath)
  end.

(** The error [loadPromptContent] throws when the read fails with [e]. *)
Definition loadError (promptFile : string) (e : JsError) : JsError :=
  new_Error ("Failed to load prompt file " +:+ promptFile +:+ ": "
             +:+ Error_toString e).

(** The error [getContextForQuery] throws when the load fails with [e]. *)
Definition contextError (e : JsError) : JsError :=
  new_Error ("Error loading context: " +:+ Error_toString e).

(** ** Sample data *)

(** A deployment directory holding the one configured document. *)
Definition sampleWorld : World :=
  {| cwd := "/srv/app";
     files := {[ "/srv/app/prompts/authorization-model.md"
                 := File "# OpenFGA modeling guide" ]};
     console := [] |}.

(** The error [fs.readFile] rejects with when the path is a directory: the
    failing system call is [read], and the error names no path. *)
Definition EISDIR : JsError :=
  {| err_name := "Error";
     err_message := "EISDIR: illegal operation on a directory, read";
     err_code := Some "EISDIR";
     err_syscall := Some "read";
     err_path := None |}.

(** The context of a query that [modelRule] answers in [sampleWorld]. *)
Definition sampleContext : QueryContext :=
  {| rule := Some {| patterns := ["Zanzibar"; "OpenFGA"];
                     promptFile := "authorization-model.md";
                     description := "Author authorization models with OpenFGA" |};
     content := Some "# OpenFGA modeling guide";
     matchFound := true |}.

(** A query of white space only: a tab, a space, U+00A0, U+2028, U+FEFF and
    a line feed. *)
Definition blankQuery : string :=
  utf8 [9; 32; 194; 160; 226; 128; 168; 239; 187; 191; 10].

(** A deployment whose document was deleted. *)
Definition missingWorld : World :=
  {| cwd := "/srv/app"; files := ∅; console := [] |}.

(** A deployment whose documents directory holds a sub-directory. *)
Definition directoryWorld : World :=
  {| cwd := "/srv/app";
     files := {[ "/srv/app/prompts/archive" := Unreadable EISDIR ]};
     console := [] |}.

(** A deployment on a machine with a file outside the documents directory. *)
Definition passwdWorld : World :=
  {| cwd := "/srv/app";
     files := {[ "/srv/app/prompts/authorization-model.md"
                 := File "# OpenFGA modeling guide";
                 "/etc/passwd" := File "root:x:0:0:root:/root:/bin/sh" ]};
     console := [] |}.

(** The objects of [new PromptMatcher()] in an empty heap. *)
Definition configuredObject : Heap.PromptMatcherObject :=
  fst (Heap.newPromptMatcher ∅ PromptMatcher_new).

Definition configuredHeap : gmap Heap.loc Heap.object :=
  snd (Heap.newPromptMatcher ∅ PromptMatcher_new).

(** A rule set of three rules with overlapping, mixed-case patterns. *)
Definition weatherRule : PromptRule :=
  {| patterns := ["Weather"; "forecast"];
     promptFile := "weather.md";
     description := "Weather reports" |}.

Definition modelRule : PromptRule :=
  {| patterns := ["Zanzibar"; "OpenFGA"];
     promptFile := "authorization-model.md";
     description := "Author authorization models with OpenFGA" |}.

Definition tupleRule : PromptRule :=
  {| patterns := ["fga"; "tuple"];
     promptFile := "tuples.md";
     description := "Write relationship tuples" |}.

Definition sampleMatcher : PromptMatcher :=
  {| rules := [weatherRule; modelRule; tupleRule] |}.

(** [sampleMatcher] with the patterns of its second rule in another order. *)
Definition reorderedMatcher : PromptMatcher :=
  {| rules := [weatherRule;
               {| patterns := ["OpenFGA"; "Zanzibar"];
                  promptFile := promptFile modelRule;
                  description := description modelRule |};
               tupleRule] |}.

(** ** The tool and resource-list handlers of the server

    The handlers registered in [setupToolHandlers] and
    [setupResourceHandlers], with [handleGetContextForQuery] and
    [handleListAvailableContexts]. As for [readResourceHandler], the calls
    to the server's [Logger] are left out: they write time-stamped lines and
    return nothing a handler uses (the id that [logRequest] returns is only
    passed to other [Logger] calls). The model gives what a handler returns
    or throws; the [console] of its world holds the lines of the
    [PromptMatcher] only. The arguments of a tool call are taken at their
    declared type, [{ query: string }]. *)

(** The characters a Rocq string literal cannot hold directly. *)
Definition dquote : string := String (ascii_of_nat 34) EmptyString.
Definition newline : string := String (ascii_of_nat 10) EmptyString.

(** [new TypeError(message)], what reading a property of [null] throws. *)
Definition new_TypeError (message : string) : JsError :=
  {| err_name := "TypeError"; err_message := message;
     err_code := None; err_syscall := None; err_path := None |}.

Module Tool.

(** An item of the [content] array of a tool result. *)
Record Content := mkContent {
  type : string;
  text : string
}.

(** The result of a tool call; [isError] is absent from the results the
    handlers build on success. *)
Record Result := mkResult {
  content : list Content;
  isError : option bool
}.

End Tool.

Module Resource.



End Resource.

(** The line of the fallback text for a rule:
    [`- ${rule.description} (patterns: ${rule.patterns.join(', ')})`]. *)
Definition contextTypeLine (r : PromptRule) : string :=
  "- " +:+ description r +:+ " (patterns: "
  +:+ String.concat ", " (patterns r) +:+ ")".

(** The block of the listing for a rule:
    [`**${rule.description}**\n` + `File: ${rule.promptFile}\n` +
     `Patterns: ${rule.patterns.join(', ')}\n`]. *)
Definition contextListBlock (r : PromptRule) : string :=
  ("**" +:+ description r +:+ "**" +:+ newline)
  +:+ ("File: " +:+ promptFile r +:+ newline)
  +:+ ("Patterns: " +:+ String.concat ", " (patterns r) +:+ newline).

(** [`${value}`] for a value of type [string | null]. *)
Definition stringOrNull (value : option string) : string :=
  match value with
  | Some s => s
  | None => "null"
  end.

Section ToolHandlers.

Variable toLowerCase : string -> string.

Definition handleGetContextForQuery (promptMatcher : PromptMatcher)
    (query : string) : Eff Tool.Result :=
  (let* result := getContextForQuery toLowerCase promptMatcher query in
   if negb (matchFound result) then
     ret {| Tool.content :=
              [ {| Tool.type := "text";
                   Tool.text :=
                     "No specific context found for query: " +:+ dquote
                     +:+ query +:+ dquote +:+ newline +:+ newline
                     +:+ "Available context types:" +:+ newline
                     +:+ String.concat newline
                           (map contextTypeLine (getAllRules promptMatcher)) |} ];
            Tool.isError := None |}
   else
     match rule result with
     | None =>
         throw (new_TypeError
                  "Cannot read properties of null (reading 'promptFile')")
     | Some r =>
         ret {| Tool.content :=
                  [ {| Tool.type := "text";
                       Tool.text :=
                         "Context found for query: " +:+ dquote +:+ query
                         +:+ dquote +:+ newline +:+ newline
                         +:+ "Using prompt: " +:+ description r
                         +:+ newline +:+ newline +:+ "---"
                         +:+ newline +:+ newline
                         +:+ stringOrNull (content result) |} ];
                Tool.isError := None |}
     end)%eff.

Definition handleListAvailableContexts (promptMatcher : PromptMatcher)
  : Eff Tool.Result :=
  let rules := getAllRules promptMatcher in
  let contextList := String.concat newline (map contextListBlock rules) in
  ret {| Tool.content :=
           [ {| Tool.type := "text";
                Tool.text := "Available Context Prompts:" +:+ newline
                             +:+ newline +:+ contextList |} ];
         Tool.isError := None |}.

(** The handler registered for [CallToolRequestSchema]. *)
Definition callToolHandler (promptMatcher : PromptMatcher)
    (name : string) (query : string) : Eff Tool.Result :=
  try_catch
    (if String.eqb name "get_context_for_query" then
       handleGetContextForQuery promptMatcher query
     else if String.eqb name "list_available_contexts" then
       handleListAvailableContexts promptMatcher
     else
       throw (new_Error ("Unknown tool: " +:+ name)))
    (fun error =>
       ret {| Tool.content :=
                [ {| Tool.type := "text";
                     Tool.text := "Error: " +:+ err_message error |} ];
              Tool.isError := Some true |}).

End ToolHandlers.


(** ** [handleGetContextForQuery] of the streamable-HTTP server

    The variant of the handler in the server with session handling: it
    rejects a blank query before the engine is called and turns every error
    into a text reply. The [length] of the trimmed query is compared with
    zero only, which holds of the empty string alone: it is counted in
    bytes. Before the blank check the handler calls nothing; the [Logger]
    calls of the other branch are left out as above. *)

Module StreamableHttp.

Section Handlers.

Variable toLowerCase : string -> string.

Definition handleGetContextForQuery (promptMatcher : PromptMatcher)
    (query : string) : Eff Tool.Result :=
  if String.eqb query "" || (String.length (trim query) =? 0) then
    ret {| Tool.content :=
             [ {| Tool.type := "text";
                  Tool.text :=
                    "Error: Query parameter is required and cannot be empty." |} ];
           Tool.isError := None |}
  else
    try_catch
      (handleGetContextForQuery toLowerCase promptMatcher query)
      (fun error =>
         ret {| Tool.content :=
                  [ {| Tool.type := "text";
                       Tool.text := "Error processing query: "
                                    +:+ err_message error |} ];
                Tool.isError := None |}).

End Handlers.

End StreamableHttp.

(** ** The log levels of [Logger] *)

Module Logger.

Inductive LogLevel : Type := DEBUG | INFO | WARN | ERROR.

(** The numeric value of an enum member. *)
Definition value (l : LogLevel) : nat :=
  match l with
  | DEBUG => 0
  | INFO => 1
  | WARN => 2
  | ERROR => 3
  end.

(** [shouldLog(level)] of a logger constructed with [logLevel]. *)
Definition shouldLog (logLevel : LogLevel) (level : LogLevel) : bool :=
  value logLevel <=? value level.

End Logger.

Section ServerConstructor.

Variable toUpperCase : string -> string.

(** The level the constructor of the server passes to [new Logger], from
    the environment variable [LOG_LEVEL] ([None] when it is not set). *)
Definition loggerLevel (LOG_LEVEL : option string) : Logger.LogLevel :=
  let logLevel := option_map toUpperCase LOG_LEVEL in
  match logLevel with
  | Some l =>
      if String.eqb l "DEBUG" then Logger.DEBUG
      else if String.eqb l "WARN" then Logger.WARN
      else if String.eqb l "ERROR" then Logger.ERROR
      else Logger.INFO
  | None => Logger.INFO
  end.

End ServerConstructor.

(** ** Notions for the further properties *)

(** The patterns of the configured rule that contain no other pattern of
    the rule. *)
Definition triggerPatterns : list string :=
  [ "access control"; "rbac"; "abac"; "permission"; "role based";
    "attribute based"; "auth"; "security model"; "zanzibar"; "rebac";
    "fga"; "tuple"; "user relation object"; "can user"; "access check" ].

(** The line [loadPromptContent] writes after the read. *)
Definition loadResultLine (promptFile : string) (result : JsError + string)
  : LogEntry :=
  match result with
  | inr t => DebugLoadedPromptFile promptFile (utf16Length t)
  | inl e => ErrorFailedToLoad promptFile e
  end.

(** The world with another file system. *)
Definition withFiles (w : World) (fs : gmap string FileEntry) : World :=
  {| cwd := cwd w; files := fs; console := console w |}.

(** A segment that [path.join] keeps as it is. *)
Definition isName (s : string) : Prop :=
  noSlash s /\ s <> "" /\ s <> "." /\ s <> "..".

(** The one rule of [new PromptMatcher()]. *)
Definition configuredRule : PromptRule :=
  hd {| patterns := []; promptFile := ""; description := "" |}
     (rules PromptMatcher_new).

(** The configured matcher without the pattern ["authentication"], the
    ninth of its rule. *)
Definition withoutAuthentication : PromptMatcher :=
  {| rules :=
       [ {| patterns := firstn 8 (patterns configuredRule)
                        ++ skipn 9 (patterns configuredRule);
            promptFile := promptFile configuredRule;
            description := description configuredRule |} ] |}.

(** ** Facts about the string primitives *)

Lemma append_cons (c : ascii) (a b : string) :
  String c a +:+ b = String c (a +:+ b).
Proof. reflexivity. Qed.

Lemma append_nil_l (a : string) : "" +:+ a = a.
Proof. reflexivity. Qed.

Lemma append_assoc (a b c : string) : (a +:+ b) +:+ c = a +:+ b +:+ c.
Proof.
  induction a as [|x a IH]; [reflexivity|].
  now rewrite !append_cons, IH.
Qed.

Lemma append_nil_r (a : string) : a +:+ "" = a.
Proof.
  induction a as [|x a IH]; [reflexivity|].
  now rewrite append_cons, IH.
Qed.

Lemma startsWith_spec (s p : string) :
  startsWith s p = true <-> exists t, s = p +:+ t.
Proof.
  revert s. induction p as [|c p IH]; intros s; simpl.
  - split; [intros _; now exists s | intros _; reflexivity].
  - destruct s as [|d s].
    + split; [discriminate | intros [t Ht]; discriminate].
    + rewrite andb_true_iff, IH, Ascii.eqb_eq. split.
      * intros [-> [t ->]]. now exists t.
      * intros [t Ht]. rewrite append_cons in Ht. injection Ht as -> ->.
        split; [reflexivity | now exists t].
Qed.

Lemma includes_spec (s p : string) :
  includes s p = true <-> substring_of p s.
Proof.
  unfold substring_of. induction s as [|d s IH].
  - simpl. rewrite orb_false_r, startsWith_spec. split.
    + intros [t Ht]. now exists "", t.
    + intros [a [b Hab]]. destruct a; [now exists b | discriminate].
  - cbn [includes]. rewrite orb_true_iff, IH, startsWith_spec. split.
    + intros [[t Ht] | [a [b Hab]]].
      * now exists "", t.
      * exists (String d a), b. now rewrite append_cons, Hab.
    + intros [a [b Hab]]. destruct a as [|x a].
      * left. now exists b.
      * right. rewrite append_cons in Hab. injection Hab as _ Hab.
        now exists a, b.
Qed.

Lemma includes_empty (s : string) : includes s "" = true.
Proof. destruct s; reflexivity. Qed.

Lemma slice_append (p t : string) : slice (String.length p) (p +:+ t) = t.
Proof. induction p as [|c p IH]; [reflexivity | exact IH]. Qed.

(** Replacing a prefix by the empty string leaves the rest of the string. *)
Lemma replace_prefix (p t : string) : replace (p +:+ t) p "" = t.
Proof.
  assert (H : startsWith (p +:+ t) p = true)
    by (apply startsWith_spec; now exists t).
  destruct (p +:+ t) as [|c s] eqn:E; cbn [replace]; rewrite H;
    rewrite append_nil_l, <- E; apply slice_append.
Qed.

(** ** Facts about the effect monad *)

Lemma outcome_bind_returned {A B} (m : Eff A) (k : A -> Eff B) w a :
  outcome m w = Returned a ->
  outcome (bind m k) w = outcome (k a) (world_after m w).
Proof.
  unfold outcome, world_after, bind. destruct (m w) as [[v|e] w']; simpl;
    intros H; [now injection H as -> | discriminate].
Qed.

Lemma outcome_bind_thrown {A B} (m : Eff A) (k : A -> Eff B) w e :
  outcome m w = Thrown e -> outcome (bind m k) w = Thrown e.
Proof.
  unfold outcome, bind. destruct (m w) as [[v|e'] w']; simpl;
    intros H; [discriminate | now injection H as ->].
Qed.

Lemma world_after_bind_returned {A B} (m : Eff A) (k : A -> Eff B) w a :
  outcome m w = Returned a ->
  world_after (bind m k) w = world_after (k a) (world_after m w).
Proof.
  unfold outcome, world_after, bind. destruct (m w) as [[v|e] w']; simpl;
    intros H; [now injection H as -> | discriminate].
Qed.

Lemma same_store_refl w : same_store w w.
Proof. now split. Qed.

Lemma same_store_trans w1 w2 w3 :
  same_store w1 w2 -> same_store w2 w3 -> same_store w1 w3.
Proof. intros [? ?] [? ?]. split; congruence. Qed.

(** ** The matching loops *)

Section MatcherFacts.

Variable toLowerCase : string -> string.

Lemma scanPatterns_None (lq : string) (ps : list string) :
  scanPatterns toLowerCase lq ps = None <->
  existsb (fun p => includes lq (toLowerCase p)) ps = false.
Proof.
  induction ps as [|p ps IH]; simpl; [tauto|].
  destruct (includes lq (toLowerCase p)); simpl; [|exact IH].
  split; discriminate.
Qed.

Lemma scanPatterns_Some (lq : string) (ps : list string) (p : string) :
  scanPatterns toLowerCase lq ps = Some p ->
  In p ps /\ includes lq (toLowerCase p) = true.
Proof.
  induction ps as [|p0 ps IH]; simpl; [discriminate|].
  destruct (includes lq (toLowerCase p0)) eqn:E.
  - intros [= <-]. auto.
  - intros H. destruct (IH H). auto.
Qed.

(** The rule the loops stop at is the rule at the first matching position. *)
Lemma scanRules_matchIndex (lq : string) (rs : list PromptRule) :
  option_map snd (scanRules toLowerCase lq rs)
  = ruleAt rs (matchIndex toLowerCase lq rs).
Proof.
  induction rs as [|r rs IH]; simpl; [reflexivity|].
  unfold ruleMatches.
  destruct (scanPatterns toLowerCase lq (patterns r)) as [p|] eqn:E.
  - destruct (existsb _ (patterns r)) eqn:E'; [reflexivity|].
    apply scanPatterns_None in E'. congruence.
  - apply scanPatterns_None in E. rewrite E, IH.
    destruct (matchIndex toLowerCase lq rs); reflexivity.
Qed.

Lemma ruleMatches_true (lq : string) (r : PromptRule) :
  ruleMatches toLowerCase lq r = true <->
  exists p, In p (patterns r) /\ includes lq (toLowerCase p) = true.
Proof. unfold ruleMatches. apply existsb_exists. Qed.

Lemma ruleMatches_false (lq : string) (r : PromptRule) :
  ruleMatches toLowerCase lq r = false <->
  forall p, In p (patterns r) -> includes lq (toLowerCase p) = false.
Proof.
  rewrite <- not_true_iff_false, ruleMatches_true. split.
  - intros H p Hp. apply not_true_iff_false. intros E. apply H. eauto.
  - intros H [p [Hp E]]. rewrite (H p Hp) in E. discriminate.
Qed.

Lemma ruleMatches_Permutation (lq : string) (r r' : PromptRule) :
  Permutation (patterns r) (patterns r') ->
  ruleMatches toLowerCase lq r = ruleMatches toLowerCase lq r'.
Proof.
  intros HP. apply eq_true_iff_eq. rewrite !ruleMatches_true.
  split; intros [p [Hp E]]; exists p; split; auto.
  - eapply Permutation_in; eauto.
  - eapply Permutation_in; [apply Permutation_sym|]; eauto.
Qed.

Lemma matchIndex_app_none (lq : string) (pre rest : list PromptRule) :
  (forall r, In r pre -> ruleMatches toLowerCase lq r = false) ->
  matchIndex toLowerCase lq (pre ++ rest)
  = option_map (Nat.add (length pre)) (matchIndex toLowerCase lq rest).
Proof.
  induction pre as [|r0 pre IH]; intros H; simpl.
  - destruct (matchIndex toLowerCase lq rest); reflexivity.
  - rewrite (H r0) by now left. rewrite IH by (intros; apply H; now right).
    destruct (matchIndex toLowerCase lq rest); reflexivity.
Qed.

Lemma matchIndex_None (lq : string) (rs : list PromptRule) :
  (forall r, In r rs -> ruleMatches toLowerCase lq r = false) ->
  matchIndex toLowerCase lq rs = None.
Proof.
  intros H. rewrite <- (app_nil_r rs). now rewrite matchIndex_app_none.
Qed.

(** Permuting the patterns of one rule leaves the first matching position
    where it was. *)
Lemma matchIndex_permuted_rule (lq : string) (pre post : list PromptRule)
      (r r' : PromptRule) :
  Permutation (patterns r) (patterns r') ->
  matchIndex toLowerCase lq (pre ++ r' :: post)
  = matchIndex toLowerCase lq (pre ++ r :: post).
Proof.
  intros HP. induction pre as [|r0 pre IH]; simpl.
  - now rewrite (ruleMatches_Permutation lq r r').
  - now rewrite IH.
Qed.

(** ** What the methods return *)

Lemma findBestMatch_outcome (this : PromptMatcher) (Q : string) (w : World) :
  outcome (findBestMatch toLowerCase this Q) w
  = Returned (ruleAt (rules this)
                     (matchIndex toLowerCase (toLowerCase Q) (rules this))).
Proof.
  rewrite <- scanRules_matchIndex.
  unfold outcome, findBestMatch, bind, console_error, ret.
  destruct (scanRules toLowerCase (toLowerCase Q) (rules this)) as [[p r]|];
    reflexivity.
Qed.

Lemma findBestMatch_same_store (this : PromptMatcher) (Q : string) (w : World) :
  same_store w (world_after (findBestMatch toLowerCase this Q) w).
Proof.
  unfold world_after, findBestMatch, bind, console_error, ret, same_store.
  destruct (scanRules toLowerCase (toLowerCase Q) (rules this)) as [[p r]|];
    simpl; auto.
Qed.

Lemma loadPromptContent_outcome (this : PromptMatcher) (f : string) (w : World) :
  outcome (loadPromptContent this f) w
  = match readResult w (promptPath (cwd w) f) with
    | inr text => Returned text
    | inl e => Thrown (loadError f e)
    end.
Proof.
  unfold outcome, loadPromptContent, bind, try_catch, process_cwd,
    console_error, fs_readFile, ret, throw, readResult, promptPath.
  simpl. destruct (files w !! _) as [[text|e]|]; reflexivity.
Qed.

Lemma loadPromptContent_same_store (this : PromptMatcher) (f : string) (w : World) :
  same_store w (world_after (loadPromptContent this f) w).
Proof.
  unfold world_after, loadPromptContent, bind, try_catch, process_cwd,
    console_error, fs_readFile, ret, throw, same_store.
  simpl. destruct (files w !! _) as [[text|e]|]; simpl; auto.
Qed.

Lemma readResult_same_store (w w' : World) (filePath : string) :
  same_store w w' -> readResult w' filePath = readResult w filePath.
Proof. intros [_ Hf]. unfold readResult. now rewrite Hf. Qed.

Lemma getContextForQuery_outcome (this : PromptMatcher) (Q : string) (w : World) :
  outcome (getContextForQuery toLowerCase this Q) w
  = match ruleAt (rules this)
                 (matchIndex toLowerCase (toLowerCase Q) (rules this)) with
    | None => Returned {| rule := None; content := None; matchFound := false |}
    | Some r =>
        match readResult w (promptPath (cwd w) (promptFile r)) with
        | inr text =>
            Returned {| rule := Some r; content := Some text; matchFound := true |}
        | inl e => Thrown (contextError (loadError (promptFile r) e))
        end
    end.
Proof.
  unfold getContextForQuery.
  rewrite (outcome_bind_returned _ _ _ _ (findBestMatch_outcome this Q w)).
  destruct (ruleAt _ _) as [r|]; [|reflexivity].
  pose proof (findBestMatch_same_store this Q w) as Hs.
  set (w1 := world_after _ w) in *.
  pose proof (loadPromptContent_outcome this (promptFile r) w1) as Hl.
  rewrite (readResult_same_store w w1 _ Hs) in Hl.
  destruct Hs as [Hc _]. rewrite Hc in Hl.
  unfold outcome, try_catch, bind, ret, throw in *.
  destruct (loadPromptContent this (promptFile r) w1) as [[text|e] w2];
    simpl in Hl; destruct (readResult w _) as [e'|text']; simpl;
    unfold contextError; congruence.
Qed.

Lemma getContextForQuery_same_store (this : PromptMatcher) (Q : string) (w : World) :
  same_store w (world_after (getContextForQuery toLowerCase this Q) w).
Proof.
  unfold getContextForQuery.
  rewrite (world_after_bind_returned _ _ _ _ (findBestMatch_outcome this Q w)).
  pose proof (findBestMatch_same_store this Q w) as Hs.
  set (w1 := world_after _ w) in *.
  destruct (ruleAt _ _) as [r|]; [|exact Hs].
  pose proof (loadPromptContent_same_store this (promptFile r) w1) as Hl.
  apply (same_store_trans _ _ _ Hs).
  unfold world_after, try_catch, bind, ret, throw in *.
  destruct (loadPromptContent this (promptFile r) w1) as [[text|e] w2];
    exact Hl.
Qed.

End MatcherFacts.

(** ** Facts about [path.join] *)

Lemma split_not_nil (s : string) : Path.split s <> [].
Proof.
  destruct s as [|c s]; simpl; [discriminate|].
  destruct (Ascii.eqb c "/"); [discriminate|].
  destruct (Path.split s); discriminate.
Qed.

Lemma split_app_sep (a b : string) :
  Path.split (a +:+ "/" +:+ b) = Path.split a ++ Path.split b.
Proof.
  induction a as [|c a IH]; [reflexivity|].
  rewrite append_cons. simpl. destruct (Ascii.eqb c "/").
  - now rewrite IH.
  - rewrite IH. pose proof (split_not_nil a) as Hn.
    destruct (Path.split a); [contradiction | reflexivity].
Qed.

Lemma split_noSlash (s : string) : noSlash s -> Path.split s = [s].
Proof.
  unfold noSlash. induction s as [|c s IH]; simpl; [reflexivity|].
  destruct (Ascii.eqb c "/"); simpl; [discriminate|].
  intros H. now rewrite (IH H).
Qed.

Lemma split_segments_noSlash (s : string) : Forall noSlash (Path.split s).
Proof.
  induction s as [|c s IH]; simpl.
  - repeat constructor.
  - destruct (Ascii.eqb c "/") eqn:E.
    + constructor; [reflexivity | exact IH].
    + destruct (Path.split s) as [|seg rest]; [repeat constructor; unfold noSlash; simpl; now rewrite E|].
      inversion IH as [|? ? Hseg Hrest]; subst. constructor; [|exact Hrest].
      unfold noSlash in *. simpl. now rewrite E.
Qed.

Lemma concat_cons2 (x y : string) (l : list string) :
  String.concat "/" (x :: y :: l) = x +:+ "/" +:+ String.concat "/" (y :: l).
Proof. reflexivity. Qed.

Lemma split_concat (l : list string) :
  l <> [] -> Forall noSlash l -> Path.split (String.concat "/" l) = l.
Proof.
  induction l as [|x l IH]; [congruence|]. intros _ HF.
  inversion HF as [|? ? Hx Hl]; subst.
  destruct l as [|y l]; [now apply split_noSlash|].
  rewrite concat_cons2, split_app_sep, (split_noSlash x Hx), IH;
    [reflexivity | discriminate | exact Hl].
Qed.

Lemma step_wfStack (allow : bool) (st : list string) (seg : string) :
  wfStack allow st -> wfStack allow (Path.step allow st seg).
Proof.
  intros H. unfold Path.step.
  destruct (String.eqb seg "") eqn:E1; [exact H|].
  destruct (String.eqb seg ".") eqn:E2; [exact H|]. simpl.
  apply String.eqb_neq in E1, E2.
  destruct (String.eqb seg "..") eqn:E3.
  - destruct st as [|last st'].
    + destruct allow; simpl; [|exact I].
      repeat split; auto; discriminate.
    + destruct (String.eqb last "..") eqn:E4.
      * apply String.eqb_eq in E4. subst last.
        destruct allow; [|exact H]. simpl. simpl in H.
        repeat split; try discriminate; try tauto. right. eauto.
      * simpl in H. tauto.
  - apply String.eqb_neq in E3. simpl. repeat split; auto. congruence.
Qed.

Lemma fold_step_wfStack (allow : bool) (segs st : list string) :
  wfStack allow st -> wfStack allow (fold_left (Path.step allow) segs st).
Proof.
  revert st. induction segs as [|seg segs IH]; intros st H; simpl; [exact H|].
  apply IH, step_wfStack, H.
Qed.

Lemma step_noSlash (allow : bool) (st : list string) (seg : string) :
  Forall noSlash st -> noSlash seg -> Forall noSlash (Path.step allow st seg).
Proof.
  intros H Hs. unfold Path.step.
  destruct (_ || _); [exact H|].
  destruct (String.eqb seg "..").
  - destruct st as [|last st'].
    + destruct allow; repeat constructor.
    + inversion H; subst. destruct (String.eqb last ".."); [|assumption].
      destruct allow; [constructor; [reflexivity|]|]; assumption.
  - now constructor.
Qed.

Lemma fold_step_noSlash (allow : bool) (segs st : list string) :
  Forall noSlash st -> Forall noSlash segs ->
  Forall noSlash (fold_left (Path.step allow) segs st).
Proof.
  revert st. induction segs as [|seg segs IH]; intros st H Hs; simpl; [exact H|].
  inversion Hs; subst. apply IH; [apply step_noSlash|]; assumption.
Qed.

(** Normalizing the segments of a normalized path rebuilds its stack. *)
Lemma replay_wfStack (allow : bool) (st : list string) :
  wfStack allow st -> fold_left (Path.step allow) (rev st) [] = st.
Proof.
  induction st as [|s st IH]; [reflexivity|].
  intros (Hne & Hnd & Hdd & Hwf). simpl rev.
  rewrite fold_left_app, (IH Hwf). simpl. unfold Path.step.
  apply String.eqb_neq in Hne, Hnd. rewrite Hne, Hnd. simpl.
  destruct (String.eqb s "..") eqn:E; [|reflexivity].
  apply String.eqb_eq in E. subst s.
  destruct (Hdd eq_refl) as [-> [-> | [st'' ->]]]; reflexivity.
Qed.

Lemma wfStack_nonempty (allow : bool) (st : list string) :
  wfStack allow st -> Forall (fun s => s <> "") st.
Proof.
  induction st as [|s st IH]; simpl; [constructor|].
  intros (Hne & _ & _ & Hwf). constructor; auto.
Qed.

Lemma concat_snoc (l : list string) (z : string) :
  exists u, String.concat "/" (l ++ [z]) = u +:+ z.
Proof.
  induction l as [|x l IH]; [now exists ""|].
  destruct IH as [u Hu]. destruct l as [|y l].
  - exists (x +:+ "/"). simpl. now rewrite append_assoc.
  - exists (x +:+ "/" +:+ u). change ((x :: y :: l) ++ [z]) with (x :: y :: (l ++ [z])).
    rewrite concat_cons2. change (y :: l ++ [z]) with ((y :: l) ++ [z]).
    now rewrite Hu, !append_assoc.
Qed.

Lemma append_not_empty_r (a b : string) : b <> "" -> a +:+ b <> "".
Proof. destruct a; [now rewrite append_nil_l | discriminate]. Qed.

Lemma endsWithSeparator_app (a b : string) :
  b <> "" -> Path.endsWithSeparator (a +:+ b) = Path.endsWithSeparator b.
Proof.
  intros Hb. induction a as [|c a IH]; [reflexivity|].
  rewrite append_cons. simpl.
  destruct (a +:+ b) eqn:E; [|exact IH].
  now apply append_not_empty_r in E.
Qed.

Lemma endsWithSeparator_noSlash (s : string) :
  noSlash s -> Path.endsWithSeparator s = false.
Proof.
  unfold noSlash. induction s as [|c s IH]; [reflexivity|]. simpl.
  destruct (Ascii.eqb c "/"); simpl; [discriminate|].
  intros H. destruct s; [reflexivity | exact (IH H)].
Qed.

Lemma isAbsolute_app (a b : string) :
  a <> "" -> Path.isAbsolute (a +:+ b) = Path.isAbsolute a.
Proof. destruct a; [congruence | reflexivity]. Qed.

Lemma concat_not_absolute (l : list string) (rest : string) :
  l <> [] -> Forall noSlash l -> Forall (fun s => s <> "") l ->
  Path.isAbsolute (String.concat "/" l +:+ rest) = false.
Proof.
  destruct l as [|x l]; [congruence|]. intros _ Hs Hn.
  inversion Hs as [|? ? Hx _]; inversion Hn as [|? ? Hx' _]; subst.
  assert (E : exists t, String.concat "/" (x :: l) +:+ rest = x +:+ t).
  { destruct l; [now exists rest|]. rewrite concat_cons2, append_assoc. eauto. }
  destruct E as [t ->]. destruct x as [|c x]; [congruence|].
  unfold noSlash in Hx. simpl in Hx. apply orb_false_iff in Hx as [Hc _].
  unfold Path.isAbsolute. rewrite append_cons. simpl. now rewrite Hc.
Qed.

(** The parts of [normalize]. *)
Lemma normalize_by_parts (p1 p2 : string) :
  p1 <> "" -> p2 <> "" ->
  Path.isAbsolute p1 = Path.isAbsolute p2 ->
  Path.endsWithSeparator p1 = Path.endsWithSeparator p2 ->
  Path.normalizeSegments (negb (Path.isAbsolute p2)) (Path.split p1)
  = Path.normalizeSegments (negb (Path.isAbsolute p2)) (Path.split p2) ->
  Path.normalize p1 = Path.normalize p2.
Proof.
  intros H1 H2 Ha He Hs. unfold Path.normalize, Path.normalizeString.
  apply String.eqb_neq in H1, H2. now rewrite H1, H2, Ha, He, Hs.
Qed.

Lemma split_leading_sep (t : string) :
  Path.split ("/" +:+ t) = "" :: Path.split t.
Proof. reflexivity. Qed.

Lemma split_single_empty (s : string) : Path.split s = [""] -> s = "".
Proof.
  destruct s as [|c s]; [reflexivity|]. simpl.
  pose proof (split_not_nil s) as Hn.
  destruct (Ascii.eqb c "/"); destruct (Path.split s); congruence.
Qed.

Lemma endsWithSeparator_split (s : string) :
  Path.endsWithSeparator s = true -> exists l, Path.split s = l ++ [""].
Proof.
  induction s as [|c s IH]; [discriminate|].
  destruct s as [|d s].
  - simpl. intros ->. now exists [""].
  - intros H. destruct (IH H) as [l Hl].
    change (Path.split (String c (String d s))) with
      (if Ascii.eqb c "/" then "" :: Path.split (String d s)
       else match Path.split (String d s) with
            | seg :: rest => String c seg :: rest
            | [] => [String c ""]
            end).
    rewrite Hl. destruct (Ascii.eqb c "/"); [now exists ("" :: l)|].
    destruct l as [|seg l]; [|now exists (String c seg :: l)].
    apply split_single_empty in Hl. discriminate.
Qed.

Lemma normalizeSegments_app (allow : bool) (l1 l2 : list string) :
  Path.normalizeSegments allow (l1 ++ l2)
  = fold_left (Path.step allow) l2 (Path.normalizeSegments allow l1).
Proof. apply fold_left_app. Qed.

Section NormalizeTwice.

Variables (A name : string) (segs : list string).
Hypothesis Hsplit : Path.split A = segs ++ [name].
Hypothesis Hname : name <> "" /\ name <> "." /\ name <> "..".

Local Abbreviation absolute := (Path.isAbsolute A).
Local Abbreviation st := (name :: Path.normalizeSegments (negb absolute) segs).

Lemma name_last_not_empty : A <> "".
Proof using Hsplit Hname.
  intros ->. simpl in Hsplit. destruct segs as [|x [|y l]]; simpl in Hsplit;
    [|discriminate..]. injection Hsplit as <-. tauto.
Qed.

Lemma name_last_no_trailing : Path.endsWithSeparator A = false.
Proof using Hsplit Hname.
  apply not_true_iff_false. intros H.
  apply endsWithSeparator_split in H as [l Hl]. rewrite Hsplit in Hl.
  apply app_inj_tail in Hl as [_ Hn]. tauto.
Qed.

Lemma name_last_segments :
  Path.normalizeSegments (negb absolute) (Path.split A) = st.
Proof using Hsplit Hname.
  unfold Path.normalizeSegments. rewrite Hsplit, fold_left_app. simpl.
  unfold Path.step. destruct Hname as (H1 & H2 & H3).
  apply String.eqb_neq in H1, H2, H3. now rewrite H1, H2, H3.
Qed.

Lemma name_last_wf : wfStack (negb absolute) st.
Proof using Hsplit Hname.
  rewrite <- name_last_segments. apply fold_step_wfStack. exact I.
Qed.

Lemma name_last_noSlash : Forall noSlash st.
Proof using Hsplit Hname.
  rewrite <- name_last_segments. apply fold_step_noSlash; [constructor|].
  apply split_segments_noSlash.
Qed.

Lemma normalize_name_last : Path.normalize A = render absolute st.
Proof using Hsplit Hname.
  unfold Path.normalize, Path.normalizeString.
  pose proof name_last_not_empty as Hne. apply String.eqb_neq in Hne.
  rewrite Hne, name_last_no_trailing. rewrite name_last_segments.
  unfold render. destruct (concat_snoc (rev (tl st)) name) as [u Hu].
  change (rev (tl st) ++ [name]) with (rev st) in Hu.
  assert (E : String.concat "/" (rev st) <> "").
  { rewrite Hu. apply append_not_empty_r. tauto. }
  apply String.eqb_neq in E. rewrite E. destruct absolute; reflexivity.
Qed.

(** Joining more segments to the normalized path or to the path itself
    normalizes to the same path. *)
Lemma normalize_normalized_prefix (rest : string) :
  rest = "" \/ (exists f, f <> "" /\ rest = "/" +:+ f) ->
  Path.normalize (Path.normalize A +:+ rest) = Path.normalize (A +:+ rest).
Proof using Hsplit Hname.
  intros Hrest. rewrite normalize_name_last.
  pose proof name_last_not_empty as HA.
  pose proof name_last_wf as Hwf. pose proof name_last_noSlash as Hns.
  assert (Hrev : rev st <> []) by (simpl; intros E; now apply app_eq_nil in E as [_ E]).
  assert (Hns' : Forall noSlash (rev st)) by now apply Forall_rev.
  assert (Hnn : Forall (fun s => s <> "") (rev st))
    by (apply Forall_rev; eapply wfStack_nonempty; eauto).
  assert (Habs : forall t, Path.isAbsolute (render absolute st +:+ t) = absolute).
  { intros t. unfold render. destruct absolute eqn:E; [reflexivity|].
    rewrite append_nil_l. now apply concat_not_absolute. }
  assert (Hsp : Path.split (render absolute st)
                = (if absolute then [""] else []) ++ rev st).
  { unfold render. destruct absolute.
    - rewrite split_leading_sep. now rewrite split_concat.
    - rewrite append_nil_l. now rewrite split_concat. }
  assert (Hreplay : Path.normalizeSegments (negb absolute)
                      ((if absolute then [""] else []) ++ rev st) = st).
  { unfold Path.normalizeSegments. rewrite fold_left_app.
    replace (fold_left _ (if absolute then [""] else []) []) with (@nil string)
      by (destruct absolute; reflexivity).
    now apply replay_wfStack. }
  assert (Hrender : render absolute st <> "").
  { unfold render. destruct (concat_snoc (rev (tl st)) name) as [u Hu].
    change (rev (tl st) ++ [name]) with (rev st) in Hu. rewrite Hu.
    apply append_not_empty_r, append_not_empty_r. tauto. }
  destruct Hrest as [-> | (f & Hf & ->)].
  - rewrite !append_nil_r. apply normalize_by_parts; auto.
    + rewrite <- (append_nil_r (render absolute st)). apply Habs.
    + rewrite name_last_no_trailing. unfold render.
      destruct (concat_snoc (rev (tl st)) name) as [u Hu].
      change (rev (tl st) ++ [name]) with (rev st) in Hu.
      rewrite Hu, <- append_assoc, endsWithSeparator_app by tauto.
      apply endsWithSeparator_noSlash. now inversion Hns.
    + now rewrite Hsp, Hreplay, name_last_segments.
  - apply normalize_by_parts.
    + apply append_not_empty_r. discriminate.
    + apply append_not_empty_r. discriminate.
    + rewrite Habs. now rewrite isAbsolute_app.
    + change ("/" +:+ f) with (String "/" f).
      rewrite !endsWithSeparator_app by discriminate. reflexivity.
    + rewrite isAbsolute_app by assumption.
      rewrite !split_app_sep, Hsp.
      rewrite (normalizeSegments_app _ (_ ++ rev _) (Path.split f)).
      rewrite (normalizeSegments_app _ (Path.split A) (Path.split f)), Hreplay.
      now rewrite name_last_segments.
Qed.

End NormalizeTwice.

(** [path.join] of a path already joined: the nested call of
    [loadPromptContent] reads the path [path.join(cwd, 'prompts', file)]. *)
Lemma promptPath_join (dir f : string) :
  promptPath dir f = Path.join [dir; "prompts"; f].
Proof.
  unfold promptPath.
  assert (Hname : "prompts" <> "" /\ "prompts" <> "." /\ "prompts" <> "..")
    by (repeat split; discriminate).
  assert (Hne : forall A segs, Path.split A = segs ++ ["prompts"] ->
                               Path.normalize A <> "").
  { intros A segs HA. rewrite (normalize_name_last A "prompts" segs HA Hname).
    unfold render. destruct (concat_snoc
      (rev (Path.normalizeSegments (negb (Path.isAbsolute A)) segs)) "prompts")
      as [u Hu]. simpl rev. rewrite Hu.
    apply append_not_empty_r, append_not_empty_r. discriminate. }
  assert (Hmain : forall A segs, Path.split A = segs ++ ["prompts"] ->
            Path.join [Path.normalize A; f]
            = Path.normalize (if String.eqb f "" then A else A +:+ "/" +:+ f)).
  { intros A segs HA. unfold Path.join. simpl.
    pose proof (Hne A segs HA) as HX. apply String.eqb_neq in HX. rewrite HX. simpl.
    destruct (String.eqb f "") eqn:Ef; simpl.
    - pose proof (normalize_normalized_prefix A "prompts" segs HA Hname ""
                    (or_introl eq_refl)) as E.
      now rewrite !append_nil_r in E.
    - apply String.eqb_neq in Ef.
      apply (normalize_normalized_prefix A "prompts" segs HA Hname).
      right. now exists f. }
  unfold Path.join at 2 3. simpl.
  destruct (String.eqb dir "") eqn:Ed; simpl.
  - rewrite (Hmain "prompts" []) by reflexivity.
    destruct (String.eqb f ""); reflexivity.
  - rewrite (Hmain (dir +:+ "/" +:+ "prompts") (Path.split dir))
      by (now rewrite split_app_sep).
    destruct (String.eqb f ""); simpl; [reflexivity|].
    now rewrite !append_assoc.
Qed.

(** ** Facts about ASCII lower-casing and white space *)

Lemma length_append (a b : string) :
  String.length (a +:+ b) = String.length a + String.length b.
Proof.
  induction a as [|c a IH]; [reflexivity|].
  rewrite append_cons. simpl. now rewrite IH.
Qed.

Lemma noAsciiLetter_append (a b : string) :
  noAsciiLetter (a +:+ b) = noAsciiLetter a && noAsciiLetter b.
Proof.
  induction a as [|c a IH]; [reflexivity|].
  rewrite append_cons. simpl. now rewrite IH, andb_assoc.
Qed.

(** A string without ASCII letters includes no string with one. *)
Lemma includes_noAsciiLetter (s p : string) :
  includes s p = true -> noAsciiLetter s = true -> noAsciiLetter p = true.
Proof.
  intros H Hs. apply includes_spec in H as [a [b ->]].
  rewrite !noAsciiLetter_append in Hs.
  apply andb_true_iff in Hs as [_ Hs]. now apply andb_true_iff in Hs as [Hs _].
Qed.

Lemma asciiLower_not_letter (c : ascii) :
  isAsciiLetter c = false -> asciiLower c = c.
Proof.
  destruct c as [[] [] [] [] [] [] [] []]; intros H;
    first [reflexivity | vm_compute in H; discriminate H].
Qed.

(** Lower-casing leaves a string without ASCII letters as it is. *)
Lemma asciiToLowerCase_noAsciiLetter (s : string) :
  noAsciiLetter s = true -> asciiToLowerCase s = s.
Proof.
  induction s as [|c s IH]; [reflexivity|]. simpl.
  intros H. apply andb_true_iff in H as [Hc Hs].
  apply negb_true_iff in Hc. now rewrite (asciiLower_not_letter c Hc), (IH Hs).
Qed.

Lemma jsWhiteSpace_chars (ws : string) :
  In ws jsWhiteSpace -> ws <> "" /\ noAsciiLetter ws = true.
Proof.
  intros H.
  assert (Hall : forallb (fun ws => negb (String.eqb ws "") && noAsciiLetter ws)
                   jsWhiteSpace = true) by reflexivity.
  rewrite forallb_forall in Hall. specialize (Hall ws H).
  apply andb_true_iff in Hall as [Hne Hnl]. split; [|assumption].
  apply negb_true_iff in Hne. now apply String.eqb_neq.
Qed.

Lemma stripWhiteSpace_spec (s s' : string) :
  stripWhiteSpace s = Some s' ->
  exists ws, In ws jsWhiteSpace /\ s = ws +:+ s'.
Proof.
  unfold stripWhiteSpace.
  destruct (List.find (fun ws => startsWith s ws) jsWhiteSpace) as [ws|] eqn:E;
    [|discriminate].
  intros [= <-]. apply find_some in E as [Hin Hstart].
  apply startsWith_spec in Hstart as [t ->].
  exists ws. split; [assumption|]. now rewrite slice_append.
Qed.

Lemma stripWhiteSpace_shorter (s s' : string) :
  stripWhiteSpace s = Some s' -> String.length s' < String.length s.
Proof.
  intros H. apply stripWhiteSpace_spec in H as (ws & Hin & ->).
  apply jsWhiteSpace_chars in Hin as [Hne _]. rewrite length_append.
  destruct ws; [congruence | simpl; lia].
Qed.

Lemma trimStartFrom_noAsciiLetter (n : nat) (s : string) :
  trimStartFrom n s = "" -> noAsciiLetter s = true.
Proof.
  revert s. induction n as [|n IH]; intros s; simpl; [now intros ->|].
  destruct (stripWhiteSpace s) as [s'|] eqn:E; [|now intros ->].
  intros H. apply stripWhiteSpace_spec in E as (ws & Hin & ->).
  apply jsWhiteSpace_chars in Hin as [_ Hws].
  now rewrite noAsciiLetter_append, Hws, (IH s' H).
Qed.

(** White space holds no ASCII letter. *)
Lemma whitespaceOnly_noAsciiLetter (s : string) :
  whitespaceOnly s = true -> noAsciiLetter s = true.
Proof.
  unfold whitespaceOnly, trimStart. intros H. apply String.eqb_eq in H.
  exact (trimStartFrom_noAsciiLetter _ s H).
Qed.

(** The fuel of [trimStart] is enough: what it returns has no white space
    at its front. *)
Lemma trimStartFrom_enough (n : nat) (s : string) :
  String.length s <= n -> stripWhiteSpace (trimStartFrom n s) = None.
Proof.
  revert s. induction n as [|n IH]; intros s Hn; simpl.
  - destruct s; [reflexivity | simpl in Hn; lia].
  - destruct (stripWhiteSpace s) as [s'|] eqn:E; [|exact E].
    apply IH. apply stripWhiteSpace_shorter in E. lia.
Qed.

Lemma trimStartFrom_stable (n : nat) (s : string) :
  stripWhiteSpace s = None -> trimStartFrom n s = s.
Proof. intros H. destruct n; simpl; [reflexivity | now rewrite H]. Qed.

Lemma trimStart_idempotent (s : string) :
  trimStart (trimStart s) = trimStart s.
Proof.
  unfold trimStart at 1. apply trimStartFrom_stable.
  unfold trimStart. now apply trimStartFrom_enough.
Qed.

Lemma trimEnd_empty (s : string) :
  trimEnd s = "" <-> whitespaceOnly s = true.
Proof.
  destruct s as [|c s]; [split; reflexivity|].
  cbn [trimEnd]. destruct (whitespaceOnly (String c s));
    split; (reflexivity || discriminate).
Qed.

(** [trim] leaves nothing exactly of the strings of white space. *)
Lemma trim_empty (s : string) :
  String.length (trim s) = 0 <-> whitespaceOnly s = true.
Proof.
  unfold trim. split.
  - intros H. destruct (trimEnd (trimStart s)) eqn:E; [|discriminate].
    apply trimEnd_empty in E. unfold whitespaceOnly in *.
    now rewrite trimStart_idempotent in E.
  - intros H. unfold whitespaceOnly in H. apply String.eqb_eq in H.
    now rewrite H.
Qed.

(** ** Facts about the object graph *)

Lemma fresh_not_allocated (h : gmap Heap.loc Heap.object) :
  h !! fresh (dom h) = None.
Proof. apply not_elem_of_dom, is_fresh. Qed.

Lemma readStringArray_insert_fresh (h : gmap Heap.loc Heap.object)
      (a l : Heap.loc) (o : Heap.object) (ps : list string) :
  h !! a = None ->
  Heap.readStringArray h l = Some ps ->
  Heap.readStringArray (<[a := o]> h) l = Some ps.
Proof.
  unfold Heap.readStringArray. intros Ha H.
  destruct (decide (a = l)) as [->|Hne].
  - now rewrite Ha in H.
  - now rewrite lookup_insert_ne.
Qed.

Lemma readRule_insert_fresh (h : gmap Heap.loc Heap.object)
      (a l : Heap.loc) (o : Heap.object) (r : PromptRule) :
  h !! a = None ->
  Heap.readRule h l = Some r ->
  Heap.readRule (<[a := o]> h) l = Some r.
Proof.
  unfold Heap.readRule. intros Ha H.
  destruct (decide (a = l)) as [->|Hne]; [now rewrite Ha in H|].
  rewrite lookup_insert_ne by assumption.
  destruct (h !! l) as [[ps|pl f d|ls]|]; try discriminate.
  destruct (Heap.readStringArray h pl) as [ps|] eqn:E; [|discriminate].
  now rewrite (readStringArray_insert_fresh h a pl o ps Ha E).
Qed.

Lemma readRuleList_insert_fresh (h : gmap Heap.loc Heap.object)
      (a : Heap.loc) (o : Heap.object) (ls : list Heap.loc)
      (rs : list PromptRule) :
  h !! a = None ->
  Heap.readRuleList h ls = Some rs ->
  Heap.readRuleList (<[a := o]> h) ls = Some rs.
Proof.
  intros Ha. revert rs. induction ls as [|l ls IH]; intros rs; simpl; [auto|].
  destruct (Heap.readRule h l) as [r|] eqn:Er; [|discriminate].
  destruct (Heap.readRuleList h ls) as [rs'|] eqn:Ers; [|discriminate].
  intros [= <-].
  now rewrite (readRule_insert_fresh h a l o r Ha Er), (IH rs' eq_refl).
Qed.

(** Writing to a location that was not allocated does not change what an
    array of rules denotes. *)
Lemma readRuleArray_insert_fresh (h : gmap Heap.loc Heap.object)
      (a x : Heap.loc) (o : Heap.object) (rs : list PromptRule) :
  h !! a = None ->
  Heap.readRuleArray h x = Some rs ->
  Heap.readRuleArray (<[a := o]> h) x = Some rs.
Proof.
  unfold Heap.readRuleArray. intros Ha H.
  destruct (decide (a = x)) as [->|Hne]; [now rewrite Ha in H|].
  rewrite lookup_insert_ne by assumption.
  destruct (h !! x) as [[ps|pl f d|ls]|]; try discriminate.
  now apply readRuleList_insert_fresh.
Qed.

Lemma snapshot_insert_fresh (h : gmap Heap.loc Heap.object)
      (a : Heap.loc) (o : Heap.object) (this : Heap.PromptMatcherObject)
      (m : PromptMatcher) :
  h !! a = None ->
  Heap.snapshot h this = Some m ->
  Heap.snapshot (<[a := o]> h) this = Some m.
Proof.
  unfold Heap.snapshot. intros Ha H.
  destruct (Heap.readRuleArray h (Heap.rulesRef this)) as [rs|] eqn:E;
    [|discriminate].
  now rewrite (readRuleArray_insert_fresh h a _ o rs Ha E).
Qed.

Lemma readRule_weaken (h h' : gmap Heap.loc Heap.object) (l : Heap.loc)
      (r : PromptRule) :
  h ⊆ h' -> Heap.readRule h l = Some r -> Heap.readRule h' l = Some r.
Proof.
  intros Hsub. unfold Heap.readRule, Heap.readStringArray.
  destruct (h !! l) as [[ps|pl f d|ls]|] eqn:El; try discriminate.
  rewrite (lookup_weaken _ _ _ _ El Hsub).
  destruct (h !! pl) as [[ps|pl' f' d'|ls]|] eqn:Ep; try discriminate.
  now rewrite (lookup_weaken _ _ _ _ Ep Hsub).
Qed.

Lemma readRuleList_weaken (h h' : gmap Heap.loc Heap.object)
      (ls : list Heap.loc) (rs : list PromptRule) :
  h ⊆ h' -> Heap.readRuleList h ls = Some rs -> Heap.readRuleList h' ls = Some rs.
Proof.
  intros Hsub. revert rs. induction ls as [|l ls IH]; intros rs; simpl; [auto|].
  destruct (Heap.readRule h l) as [r|] eqn:Er; [|discriminate].
  destruct (Heap.readRuleList h ls) as [rs'|] eqn:Ers; [|discriminate].
  intros [= <-].
  now rewrite (readRule_weaken h h' l r Hsub Er), (IH rs' eq_refl).
Qed.

Lemma allocRule_spec (h : gmap Heap.loc Heap.object) (r : PromptRule) :
  h ⊆ snd (Heap.allocRule h r) /\
  Heap.readRule (snd (Heap.allocRule h r)) (fst (Heap.allocRule h r)) = Some r.
Proof.
  unfold Heap.allocRule. simpl.
  set (pl := fresh (dom h)).
  set (h1 := <[pl := Heap.StringArray (patterns r)]> h).
  set (l := fresh (dom h1)).
  assert (Hpl : h !! pl = None) by apply fresh_not_allocated.
  assert (Hl : h1 !! l = None) by apply fresh_not_allocated.
  split.
  - transitivity h1; now apply insert_subseteq.
  - unfold Heap.readRule, Heap.readStringArray. rewrite lookup_insert_eq.
    assert (Hne : l <> pl).
    { intros E. rewrite E in Hl. unfold h1 in Hl.
      now rewrite lookup_insert_eq in Hl. }
    rewrite lookup_insert_ne by assumption. unfold h1.
    rewrite lookup_insert_eq. now destruct r.
Qed.

Lemma allocRules_spec (h : gmap Heap.loc Heap.object) (rs : list PromptRule) :
  h ⊆ snd (Heap.allocRules h rs) /\
  Heap.readRuleList (snd (Heap.allocRules h rs)) (fst (Heap.allocRules h rs))
  = Some rs.
Proof.
  revert h. induction rs as [|r rs IH]; intros h; [now split|].
  change (Heap.allocRules h (r :: rs))
    with (let '(l, h1) := Heap.allocRule h r in
          let '(ls, h2) := Heap.allocRules h1 rs in (l :: ls, h2)).
  destruct (allocRule_spec h r) as [Hsub Hr].
  destruct (Heap.allocRule h r) as [l h1]. simpl in Hsub, Hr.
  destruct (IH h1) as [Hsub' Hrs].
  destruct (Heap.allocRules h1 rs) as [ls h2]. simpl in *.
  split; [now transitivity h1|].
  now rewrite (readRule_weaken h1 h2 l r Hsub' Hr), Hrs.
Qed.

(** The objects built for an instance denote its rule set. *)
Lemma snapshot_newPromptMatcher (h : gmap Heap.loc Heap.object)
      (m : PromptMatcher) :
  Heap.snapshot (snd (Heap.newPromptMatcher h m))
                (fst (Heap.newPromptMatcher h m)) = Some m.
Proof.
  unfold Heap.newPromptMatcher.
  destruct (allocRules_spec h (rules m)) as [_ Hrs].
  destruct (Heap.allocRules h (rules m)) as [ls h1]. simpl in *.
  unfold Heap.snapshot, Heap.readRuleArray. simpl. rewrite lookup_insert_eq.
  rewrite (readRuleList_insert_fresh h1 _ _ ls (rules m)
             (fresh_not_allocated h1) Hrs).
  now destruct m.
Qed.

(** ** Properties of the matching engine *)

Section MatcherProperties.

Variable toLowerCase : string -> string.

(** C1: when [Rx] is the earliest rule, in declaration order, that has a
    pattern occurring in the query as a case-insensitive substring,
    [findBestMatch] returns [Rx]; the same holds for every other casing [Q']
    of the query, and the patterns are compared lower-cased whatever their
    casing. *)
Theorem findBestMatch_earliest_rule
    (this : PromptMatcher) (pre post : list PromptRule) (Rx : PromptRule)
    (P Q Q' : string) (w : World) :
  rules this = pre ++ Rx :: post ->
  In P (patterns Rx) ->
  ci_substring toLowerCase P Q ->
  (forall r p, In r pre -> In p (patterns r) ->
               ~ ci_substring toLowerCase p Q) ->
  toLowerCase Q' = toLowerCase Q ->
  outcome (findBestMatch toLowerCase this Q') w = Returned (Some Rx).
Proof.
  intros Hrules HP Hsub Hpre Hcase.
  rewrite findBestMatch_outcome, Hcase, Hrules. f_equal.
  rewrite matchIndex_app_none.
  - simpl.
    assert (E : ruleMatches toLowerCase (toLowerCase Q) Rx = true).
    { apply ruleMatches_true. exists P. split; [exact HP|].
      apply includes_spec. exact Hsub. }
    rewrite E. simpl. rewrite Nat.add_0_r. apply list_lookup_middle.
    reflexivity.
  - intros r Hr. apply ruleMatches_false. intros p Hp.
    apply not_true_iff_false. intros E. apply includes_spec in E.
    exact (Hpre r p Hr Hp E).
Qed.

(** C2: when no pattern of any rule is a case-insensitive substring of the
    query, [findBestMatch] returns null and [getContextForQuery] returns
    [{rule: null, content: null, matchFound: false}]; neither throws. *)
Theorem no_match_is_a_value
    (this : PromptMatcher) (Q : string) (w : World) :
  (forall r p, In r (rules this) -> In p (patterns r) ->
               ~ ci_substring toLowerCase p Q) ->
  outcome (findBestMatch toLowerCase this Q) w = Returned None /\
  outcome (getContextForQuery toLowerCase this Q) w
  = Returned {| rule := None; content := None; matchFound := false |}.
Proof.
  intros Hno.
  assert (E : matchIndex toLowerCase (toLowerCase Q) (rules this) = None).
  { apply matchIndex_None. intros r Hr. apply ruleMatches_false. intros p Hp.
    apply not_true_iff_false. intros E. apply includes_spec in E.
    exact (Hno r p Hr Hp E). }
  rewrite findBestMatch_outcome, getContextForQuery_outcome, E. split; reflexivity.
Qed.

(** C5: permuting the pattern list of one rule, with the order of the rules
    unchanged, does not change which rule [findBestMatch] returns: both rule
    sets yield the rule at the same position of the declaration order, or
    both yield null. *)
Theorem findBestMatch_pattern_order_irrelevant
    (this this' : PromptMatcher) (pre post : list PromptRule)
    (r : PromptRule) (ps' : list string) (Q : string) (w w' : World) :
  rules this = pre ++ r :: post ->
  rules this' = pre ++ {| patterns := ps'; promptFile := promptFile r;
                          description := description r |} :: post ->
  Permutation (patterns r) ps' ->
  exists i : option nat,
    outcome (findBestMatch toLowerCase this Q) w
    = Returned (ruleAt (rules this) i) /\
    outcome (findBestMatch toLowerCase this' Q) w'
    = Returned (ruleAt (rules this') i).
Proof.
  intros H H' HP.
  exists (matchIndex toLowerCase (toLowerCase Q) (rules this)).
  rewrite !findBestMatch_outcome. split; [reflexivity|].
  rewrite H', H. now rewrite (matchIndex_permuted_rule _ _ _ _ r).
Qed.

(** C6: a call of [getContextForQuery] leaves the working directory and the
    document store as they were, and a second call with the same query
    ends as the first did: the same rule, content and [matchFound] flag, or
    the same error. *)
Theorem getContextForQuery_idempotent
    (this : PromptMatcher) (Q : string) (w : World) :
  let w1 := world_after (getContextForQuery toLowerCase this Q) w in
  same_store w w1 /\
  outcome (getContextForQuery toLowerCase this Q) w1
  = outcome (getContextForQuery toLowerCase this Q) w.
Proof.
  intros w1. pose proof (getContextForQuery_same_store toLowerCase this Q w) as Hs.
  fold w1 in Hs. split; [exact Hs|].
  rewrite !getContextForQuery_outcome.
  destruct (ruleAt _ _) as [r|]; [|reflexivity].
  rewrite (readResult_same_store w w1 _ Hs). destruct Hs as [-> _].
  reflexivity.
Qed.

(** C9: a value returned by [getContextForQuery] has [matchFound] true
    exactly when its rule is not null, and exactly when its content is not
    null. *)
Theorem getContextForQuery_shape
    (this : PromptMatcher) (Q : string) (w : World) (ctx : QueryContext) :
  outcome (getContextForQuery toLowerCase this Q) w = Returned ctx ->
  (matchFound ctx = true <-> rule ctx <> None) /\
  (matchFound ctx = true <-> content ctx <> None).
Proof.
  rewrite getContextForQuery_outcome.
  destruct (ruleAt _ _) as [r|].
  - destruct (readResult w _) as [e|text]; [discriminate|].
    intros [= <-]. simpl. split; split; congruence.
  - intros [= <-]. simpl. split; split; congruence.
Qed.

End MatcherProperties.

(** ** Properties of document loading *)

Lemma readResourceHandler_outcome (pm : PromptMatcher) (suffix : string)
      (w : World) :
  outcome (readResourceHandler pm ("prompt://" +:+ suffix)) w
  = match readResult w (Path.join [cwd w; "prompts"; suffix]) with
    | inr t =>
        Returned {| contents := [ {| uri := "prompt://" +:+ suffix;
                                     mimeType := "text/markdown";
                                     text := t |} ] |}
    | inl e =>
        Thrown (new_Error ("Failed to read resource " +:+ ("prompt://" +:+ suffix)
                           +:+ ": " +:+ Error_toString (loadError suffix e)))
    end.
Proof.
  unfold readResourceHandler.
  assert (Hs : startsWith ("prompt://" +:+ suffix) "prompt://" = true)
    by (apply startsWith_spec; now exists suffix).
  rewrite Hs, replace_prefix. simpl negb. cbv iota.
  pose proof (loadPromptContent_outcome pm suffix w) as Hl.
  rewrite promptPath_join in Hl.
  unfold outcome, try_catch, bind, ret, throw in *.
  destruct (loadPromptContent pm suffix w) as [[t|e] w1]; simpl in Hl;
    destruct (readResult w _) as [e'|t']; simpl; congruence.
Qed.

(** C3 (as amended): when the read of the resolved path fails with an error
    [e], [loadPromptContent] throws an [Error] whose message is
    ["Failed to load prompt file <documentRef>: <e as a string>"]: the
    message contains the text of the underlying error and the document
    reference. For a query matched to a rule with that document,
    [getContextForQuery] throws an [Error] whose message is
    ["Error loading context: Error: Failed to load prompt file
    <documentRef>: <e as a string>"] and returns no value, so the failure
    cannot be taken for the no-match result. *)
Theorem load_failure_is_thrown
    (this : PromptMatcher) (documentRef : string) (w : World) (e : JsError) :
  readResult w (Path.join [cwd w; "prompts"; documentRef]) = inl e ->
  outcome (loadPromptContent this documentRef) w
  = Thrown (loadError documentRef e) /\
  err_message (loadError documentRef e)
  = "Failed to load prompt file " +:+ documentRef +:+ ": " +:+ Error_toString e /\
  carriesError (loadError documentRef e) e /\
  substring_of documentRef (err_message (loadError documentRef e)) /\
  err_message (contextError (loadError documentRef e))
  = "Error loading context: Error: Failed to load prompt file "
    +:+ documentRef +:+ ": " +:+ Error_toString e /\
  forall (toLowerCase : string -> string) (Q : string) (r : PromptRule),
    outcome (findBestMatch toLowerCase this Q) w = Returned (Some r) ->
    promptFile r = documentRef ->
    outcome (getContextForQuery toLowerCase this Q) w
    = Thrown (contextError (loadError documentRef e)) /\
    forall ctx, outcome (getContextForQuery toLowerCase this Q) w <> Returned ctx.
Proof.
  intros Hread. rewrite <- promptPath_join in Hread.
  split; [now rewrite loadPromptContent_outcome, Hread|].
  split; [reflexivity|].
  split.
  { exists ("Failed to load prompt file " +:+ documentRef +:+ ": "), "".
    unfold loadError. simpl. now rewrite append_nil_r, !append_assoc. }
  split.
  { exists "Failed to load prompt file ", (": " +:+ Error_toString e).
    reflexivity. }
  split; [reflexivity|].
  intros toLowerCase Q r Hfind Hr.
  rewrite findBestMatch_outcome in Hfind. injection Hfind as Hfind.
  rewrite getContextForQuery_outcome, Hfind, Hr, Hread.
  split; [reflexivity | discriminate].
Qed.

(** C4: for the query "How do I create an OpenFGA authorization model?" the
    configured matcher returns [matchFound = true], its single rule, whose
    description is "Author authorization models with OpenFGA", and as
    content the full text of [authorization-model.md]. *)
Theorem openfga_query_scenario (w : World) (doc : string) :
  files w !! Path.join [cwd w; "prompts"; "authorization-model.md"]
  = Some (File doc) ->
  exists r,
    rules PromptMatcher_new = [r] /\
    description r = "Author authorization models with OpenFGA" /\
    outcome (getContextForQuery asciiToLowerCase PromptMatcher_new
               "How do I create an OpenFGA authorization model?") w
    = Returned {| rule := Some r; content := Some doc; matchFound := true |}.
Proof.
  intros Hdoc. eexists. split; [reflexivity|]. split; [reflexivity|].
  rewrite getContextForQuery_outcome.
  assert (E : matchIndex asciiToLowerCase
                (asciiToLowerCase "How do I create an OpenFGA authorization model?")
                (rules PromptMatcher_new) = Some 0) by reflexivity.
  rewrite E. simpl ruleAt. cbv iota. simpl promptFile.
  rewrite promptPath_join. unfold readResult. now rewrite Hdoc.
Qed.

(** C7: the empty query and every query of white space only (any run of
    the white space and line terminator characters of ECMAScript) find no
    rule in the configured rule set: [findBestMatch] returns null and does
    not throw. Lower-casing leaves such a query as it is, and the result
    holds for every lower-casing that leaves the query and the configured
    (lower-case) patterns as they are. *)
Theorem blank_query_no_match (Q : string) (w : World) :
  whitespaceOnly Q = true ->
  outcome (findBestMatch asciiToLowerCase PromptMatcher_new Q) w
  = Returned None /\
  asciiToLowerCase Q = Q /\
  forall toLowerCase : string -> string,
    Forall (fun p => toLowerCase p = p) (patterns configuredRule) ->
    toLowerCase Q = Q ->
    outcome (findBestMatch toLowerCase PromptMatcher_new Q) w = Returned None.
Proof.
  intros HQ. apply whitespaceOnly_noAsciiLetter in HQ.
  assert (Hgen : forall toLowerCase : string -> string,
            Forall (fun p => toLowerCase p = p) (patterns configuredRule) ->
            toLowerCase Q = Q ->
            outcome (findBestMatch toLowerCase PromptMatcher_new Q) w
            = Returned None).
  { intros toLowerCase Hpat HlQ. rewrite findBestMatch_outcome. f_equal.
    rewrite matchIndex_None; [reflexivity|].
    intros r [<-|[]]. apply ruleMatches_false. intros p Hp.
    rewrite List.Forall_forall in Hpat. change (In p (patterns configuredRule)) in Hp.
    rewrite HlQ, (Hpat p Hp). apply not_true_iff_false. intros Hinc.
    pose proof (includes_noAsciiLetter Q p Hinc HQ) as Hnl.
    assert (Hall : forallb (fun p => negb (noAsciiLetter p))
                     (patterns configuredRule) = true) by reflexivity.
    rewrite forallb_forall in Hall. specialize (Hall p Hp).
    rewrite Hnl in Hall. discriminate. }
  pose proof (asciiToLowerCase_noAsciiLetter Q HQ) as Hfix.
  split; [|split; [exact Hfix | exact Hgen]].
  apply Hgen; [|exact Hfix].
  apply List.Forall_forall. intros p Hp.
  assert (Hall : forallb (fun p => String.eqb (asciiToLowerCase p) p)
                   (patterns configuredRule) = true) by reflexivity.
  rewrite forallb_forall in Hall. now apply String.eqb_eq, Hall.
Qed.

(** C10: for every document reference, [loadPromptContent] reads the file at
    [path.join(cwd, 'prompts', documentRef)] and nothing else decides its
    result: no reference is rejected. The [resources/read] handler passes
    the part of the URI after [prompt://] as the reference, so a URI with
    [..] segments reads a file outside the documents directory. *)
Theorem loadPromptContent_reads_unvalidated_path :
  (forall (this : PromptMatcher) (documentRef : string) (w : World),
     outcome (loadPromptContent this documentRef) w
     = match readResult w (Path.join [cwd w; "prompts"; documentRef]) with
       | inr t => Returned t
       | inl e => Thrown (loadError documentRef e)
       end) /\
  (forall (this : PromptMatcher) (documentRef : string) (w : World),
     In (DebugLoadingPromptFile (Path.join [cwd w; "prompts"; documentRef]))
        (console (world_after (loadPromptContent this documentRef) w))) /\
  (forall (pm : PromptMatcher) (suffix : string) (w : World),
     outcome (readResourceHandler pm ("prompt://" +:+ suffix)) w
     = match readResult w (Path.join [cwd w; "prompts"; suffix]) with
       | inr t =>
           Returned {| contents := [ {| uri := "prompt://" +:+ suffix;
                                        mimeType := "text/markdown";
                                        text := t |} ] |}
       | inl e =>
           Thrown (new_Error ("Failed to read resource "
                              +:+ ("prompt://" +:+ suffix) +:+ ": "
                              +:+ Error_toString (loadError suffix e)))
       end) /\
  Path.join [cwd passwdWorld; "prompts"; "../../../etc/passwd"] = "/etc/passwd" /\
  startsWith "/etc/passwd" (Path.join [cwd passwdWorld; "prompts"]) = false /\
  outcome (readResourceHandler PromptMatcher_new "prompt://../../../etc/passwd")
          passwdWorld
  = Returned {| contents := [ {| uri := "prompt://../../../etc/passwd";
                                 mimeType := "text/markdown";
                                 text := "root:x:0:0:root:/root:/bin/sh" |} ] |}.
Proof.
  split.
  { intros this documentRef w.
    now rewrite loadPromptContent_outcome, promptPath_join. }
  split.
  { intros this documentRef w. rewrite <- promptPath_join.
    unfold world_after, loadPromptContent, bind, try_catch, process_cwd,
      console_error, fs_readFile, ret, throw, promptPath. simpl.
    destruct (files w !! _) as [[t|e]|]; simpl; rewrite !in_app_iff; simpl; tauto. }
  split.
  { intros pm suffix w. apply readResourceHandler_outcome. }
  repeat split; reflexivity.
Qed.

(** ** Properties of [getAllRules] *)

(** C8 (as amended): [getAllRules] returns the configured rules in
    declaration order (so as many as are configured) in an array of its own,
    and whatever the caller stores in that array, the rule set the engine
    reads is unchanged, and so are the results of the following
    [findBestMatch], [getContextForQuery] and [getAllRules] calls. *)
Theorem getAllRules_copy_is_detached
    (h : gmap Heap.loc Heap.object) (this : Heap.PromptMatcherObject)
    (m : PromptMatcher) :
  Heap.snapshot h this = Some m ->
  getAllRules m = rules m /\
  exists (a : Heap.loc) (h1 : gmap Heap.loc Heap.object),
    Heap.getAllRules h this = Some (a, h1) /\
    h !! a = None /\
    Heap.readRuleArray h1 a = Some (rules m) /\
    forall elems : list Heap.loc,
      let h2 := Heap.overwriteArray h1 a elems in
      Heap.snapshot h2 this = Some m /\
      (forall toLowerCase Q,
         Heap.findBestMatch toLowerCase h2 this Q
         = Heap.findBestMatch toLowerCase h this Q) /\
      (forall toLowerCase Q,
         Heap.getContextForQuery toLowerCase h2 this Q
         = Heap.getContextForQuery toLowerCase h this Q) /\
      exists (a' : Heap.loc) (h3 : gmap Heap.loc Heap.object),
        Heap.getAllRules h2 this = Some (a', h3) /\
        Heap.readRuleArray h3 a' = Some (rules m).
Proof.
  intros Hsnap. split; [reflexivity|].
  assert (Harr : Heap.readRuleArray h (Heap.rulesRef this) = Some (rules m)).
  { unfold Heap.snapshot in Hsnap.
    destruct (Heap.readRuleArray h (Heap.rulesRef this)) as [rs|];
      [|discriminate]. now injection Hsnap as <-. }
  unfold Heap.readRuleArray in Harr.
  destruct (h !! Heap.rulesRef this) as [[ps|pl f d|ls]|] eqn:Ethis;
    try discriminate.
  pose proof (fresh_not_allocated h) as Hfresh.
  set (a := fresh (dom h)) in *.
  assert (Hne : a <> Heap.rulesRef this) by congruence.
  exists a, (<[a := Heap.RuleArray ls]> h).
  split; [unfold Heap.getAllRules; now rewrite Ethis|].
  split; [exact Hfresh|].
  split.
  { unfold Heap.readRuleArray. rewrite lookup_insert_eq.
    now apply readRuleList_insert_fresh. }
  intros elems h2. unfold Heap.overwriteArray in h2.
  assert (Eh2 : h2 = <[a := Heap.RuleArray elems]> h)
    by (unfold h2; apply insert_insert_eq).
  assert (Hsnap2 : Heap.snapshot h2 this = Some m)
    by (rewrite Eh2; now apply snapshot_insert_fresh).
  split; [exact Hsnap2|].
  split; [intros; unfold Heap.findBestMatch; now rewrite Hsnap2, Hsnap|].
  split; [intros; unfold Heap.getContextForQuery; now rewrite Hsnap2, Hsnap|].
  assert (Ethis2 : h2 !! Heap.rulesRef this = Some (Heap.RuleArray ls))
    by (rewrite Eh2, lookup_insert_ne; assumption).
  exists (fresh (dom h2)), (<[fresh (dom h2) := Heap.RuleArray ls]> h2).
  split; [unfold Heap.getAllRules; now rewrite Ethis2|].
  unfold Heap.readRuleArray. rewrite lookup_insert_eq.
  apply readRuleList_insert_fresh; [apply fresh_not_allocated|].
  rewrite Eh2. now apply readRuleList_insert_fresh.
Qed.

(** The rule objects are shared with the returned array: a pattern pushed
    through its first element reaches the engine, which then finds a rule
    for a query it had no rule for. *)
Lemma getAllRules_shares_rule_objects :
  exists (a : Heap.loc) (h1 h2 : gmap Heap.loc Heap.object) (r : PromptRule),
    Heap.getAllRules configuredHeap configuredObject = Some (a, h1) /\
    Heap.pushPattern h1 a 0 "weather" = Some h2 /\
    option_map (fun call => outcome call sampleWorld)
      (Heap.findBestMatch asciiToLowerCase configuredHeap configuredObject
         "What's the weather today?")
    = Some (Returned None) /\
    option_map (fun call => outcome call sampleWorld)
      (Heap.findBestMatch asciiToLowerCase h2 configuredObject
         "What's the weather today?")
    = Some (Returned (Some r)) /\
    Heap.snapshot h2 configuredObject
    <> Heap.snapshot configuredHeap configuredObject.
Proof.
  do 4 eexists.
  split; [vm_compute; reflexivity|].
  split; [vm_compute; reflexivity|].
  split; [vm_compute; reflexivity|].
  split; [vm_compute; reflexivity|].
  vm_compute. discriminate.
Qed.

(** ** Instances *)

Ltac no_pattern_occurs :=
  let r := fresh "r" in
  let p := fresh "p" in
  let Hr := fresh "Hr" in
  let Hp := fresh "Hp" in
  let H := fresh "H" in
  intros r p Hr Hp H; apply includes_spec in H; revert H;
  simpl in Hr;
  repeat (destruct Hr as [<-|Hr];
          [simpl in Hp;
           repeat (destruct Hp as [<-|Hp]; [vm_compute; discriminate|]);
           destruct Hp|]);
  destruct Hr.

Lemma findBestMatch_earliest_rule_witness :
  outcome (findBestMatch asciiToLowerCase sampleMatcher
             "Tell me about OPENFGA tuples") sampleWorld
  = Returned (Some modelRule).
Proof.
  apply (findBestMatch_earliest_rule asciiToLowerCase sampleMatcher
           [weatherRule] [tupleRule] modelRule
           "OpenFGA" "tell me about openfga tuples").
  - reflexivity.
  - simpl. auto.
  - apply includes_spec. reflexivity.
  - no_pattern_occurs.
  - reflexivity.
Defined.

Lemma no_match_is_a_value_witness :
  outcome (findBestMatch asciiToLowerCase sampleMatcher "What time is it?")
          sampleWorld
  = Returned None /\
  outcome (getContextForQuery asciiToLowerCase sampleMatcher "What time is it?")
          sampleWorld
  = Returned {| rule := None; content := None; matchFound := false |}.
Proof.
  apply (no_match_is_a_value asciiToLowerCase sampleMatcher "What time is it?").
  no_pattern_occurs.
Defined.

Lemma findBestMatch_pattern_order_irrelevant_witness :
  exists i : option nat,
    outcome (findBestMatch asciiToLowerCase sampleMatcher
               "zanzibar and openfga") sampleWorld
    = Returned (ruleAt (rules sampleMatcher) i) /\
    outcome (findBestMatch asciiToLowerCase reorderedMatcher
               "zanzibar and openfga") sampleWorld
    = Returned (ruleAt (rules reorderedMatcher) i).
Proof.
  apply (findBestMatch_pattern_order_irrelevant asciiToLowerCase
           sampleMatcher reorderedMatcher [weatherRule] [tupleRule] modelRule
           ["OpenFGA"; "Zanzibar"]).
  - reflexivity.
  - reflexivity.
  - simpl. apply perm_swap.
Defined.

Lemma getContextForQuery_shape_witness :
  outcome (getContextForQuery asciiToLowerCase sampleMatcher
             "Is OpenFGA like Zanzibar?") sampleWorld
  = Returned sampleContext /\
  (matchFound sampleContext = true <-> rule sampleContext <> None) /\
  (matchFound sampleContext = true <-> content sampleContext <> None).
Proof.
  split; [vm_compute; reflexivity|].
  apply (getContextForQuery_shape asciiToLowerCase sampleMatcher
           "Is OpenFGA like Zanzibar?" sampleWorld sampleContext).
  vm_compute. reflexivity.
Defined.

Lemma load_failure_is_thrown_witness :
  outcome (getContextForQuery asciiToLowerCase PromptMatcher_new "openfga")
          missingWorld
  = Thrown (contextError
              (loadError "authorization-model.md"
                 (ENOENT "/srv/app/prompts/authorization-model.md"))).
Proof.
  destruct (load_failure_is_thrown PromptMatcher_new "authorization-model.md"
              missingWorld (ENOENT "/srv/app/prompts/authorization-model.md"))
    as (_ & _ & _ & _ & _ & H); [vm_compute; reflexivity|].
  eapply H; vm_compute; reflexivity.
Defined.

(** The claim of C3 fails where the read fails without naming the path: the
    error thrown for a reference to a directory carries neither a [path]
    property nor the attempted path in its message. *)
Lemma load_error_omits_attempted_path :
  readResult directoryWorld (Path.join [cwd directoryWorld; "prompts"; "archive"])
  = inl EISDIR /\
  exists e' : JsError,
    outcome (loadPromptContent PromptMatcher_new "archive") directoryWorld
    = Thrown e' /\
    ~ carriesPath e' (Path.join [cwd directoryWorld; "prompts"; "archive"]).
Proof.
  split; [vm_compute; reflexivity|].
  eexists. split; [vm_compute; reflexivity|].
  intros [H|H]; [discriminate|].
  apply includes_spec in H. vm_compute in H. discriminate.
Qed.

Lemma openfga_query_scenario_witness :
  exists r,
    rules PromptMatcher_new = [r] /\
    description r = "Author authorization models with OpenFGA" /\
    outcome (getContextForQuery asciiToLowerCase PromptMatcher_new
               "How do I create an OpenFGA authorization model?") sampleWorld
    = Returned {| rule := Some r;
                  content := Some "# OpenFGA modeling guide";
                  matchFound := true |}.
Proof.
  apply (openfga_query_scenario sampleWorld "# OpenFGA modeling guide").
  vm_compute. reflexivity.
Defined.

(** The configured patterns matter for blank queries: a rule with an empty
    pattern answers every query, the empty one included. *)
Lemma empty_pattern_matches_blank_query :
  outcome (findBestMatch asciiToLowerCase
             {| rules := [ {| patterns := [""]; promptFile := "any.md";
                              description := "Anything" |} ] |} "")
          sampleWorld
  = Returned (Some {| patterns := [""]; promptFile := "any.md";
                      description := "Anything" |}).
Proof. reflexivity. Qed.

Lemma blank_query_no_match_witness :
  whitespaceOnly blankQuery = true /\
  outcome (findBestMatch asciiToLowerCase PromptMatcher_new blankQuery)
          sampleWorld
  = Returned None /\
  asciiToLowerCase blankQuery = blankQuery /\
  outcome (findBestMatch asciiToLowerCase PromptMatcher_new "") sampleWorld
  = Returned None.
Proof.
  split; [vm_compute; reflexivity|].
  destruct (blank_query_no_match blankQuery sampleWorld) as (H1 & H2 & _);
    [vm_compute; reflexivity|].
  destruct (blank_query_no_match "" sampleWorld) as (H3 & _);
    [vm_compute; reflexivity|].
  repeat split; assumption.
Defined.

Lemma getAllRules_copy_is_detached_witness :
  Heap.snapshot configuredHeap configuredObject = Some PromptMatcher_new /\
  getAllRules PromptMatcher_new = rules PromptMatcher_new.
Proof.
  split; [vm_compute; reflexivity|].
  apply (getAllRules_copy_is_detached configuredHeap configuredObject).
  vm_compute; reflexivity.
Defined.

(** ** More about the matching loops *)

Section MatchingLoops.

Variable toLowerCase : string -> string.

(** The pattern the inner loop stops at is the first one included. *)
Lemma scanPatterns_first (lq : string) (ps : list string) (p : string) :
  scanPatterns toLowerCase lq ps = Some p ->
  exists before after,
    ps = before ++ p :: after /\
    includes lq (toLowerCase p) = true /\
    Forall (fun p' => includes lq (toLowerCase p') = false) before.
Proof.
  induction ps as [|p0 ps IH]; simpl; [discriminate|].
  destruct (includes lq (toLowerCase p0)) eqn:E.
  - intros [= <-]. exists [], ps. repeat split; [assumption | constructor].
  - intros H. destruct (IH H) as (before & after & -> & Hp & Hb).
    exists (p0 :: before), after. repeat split; [assumption|].
    now constructor.
Qed.

(** The rule the outer loop stops at is the first one with a pattern
    included. *)
Lemma scanRules_first (lq : string) (rs : list PromptRule)
      (p : string) (r : PromptRule) :
  scanRules toLowerCase lq rs = Some (p, r) ->
  exists pre post,
    rs = pre ++ r :: post /\
    scanPatterns toLowerCase lq (patterns r) = Some p /\
    Forall (fun r' => scanPatterns toLowerCase lq (patterns r') = None) pre.
Proof.
  induction rs as [|r0 rs IH]; simpl; [discriminate|].
  destruct (scanPatterns toLowerCase lq (patterns r0)) as [p0|] eqn:E.
  - intros [= <- <-]. exists [], rs. repeat split; [assumption | constructor].
  - intros H. destruct (IH H) as (pre & post & -> & Hp & Hpre).
    exists (r0 :: pre), post. repeat split; [assumption|].
    now constructor.
Qed.

Lemma scanRules_none (lq : string) (rs : list PromptRule) :
  scanRules toLowerCase lq rs = None ->
  Forall (fun r => scanPatterns toLowerCase lq (patterns r) = None) rs.
Proof.
  induction rs as [|r0 rs IH]; simpl; [constructor|].
  destruct (scanPatterns toLowerCase lq (patterns r0)) as [p0|] eqn:E;
    [discriminate|].
  intros H. constructor; auto.
Qed.

Lemma scanPatterns_none_no_substring (Q : string) (ps : list string) :
  scanPatterns toLowerCase (toLowerCase Q) ps = None ->
  forall p, In p ps -> ~ ci_substring toLowerCase p Q.
Proof.
  intros H p Hp Hsub. apply scanPatterns_None in H.
  assert (E : existsb (fun p => includes (toLowerCase Q) (toLowerCase p)) ps = true).
  { apply existsb_exists. exists p. split; [assumption|].
    now apply includes_spec. }
  congruence.
Qed.

(** What one call of [findBestMatch] does: its value and its two lines. *)
Lemma findBestMatch_run (this : PromptMatcher) (Q : string) (w : World) :
  findBestMatch toLowerCase this Q w
  = (Returned (option_map snd (scanRules toLowerCase (toLowerCase Q) (rules this))),
     {| cwd := cwd w; files := files w;
        console := console w ++
          [DebugMatchingQuery Q;
           match scanRules toLowerCase (toLowerCase Q) (rules this) with
           | Some (p, r) => DebugPatternMatchFound p (promptFile r)
           | None => DebugNoPatternMatch Q
           end] |}).
Proof.
  unfold findBestMatch, bind, console_error, ret.
  destruct (scanRules toLowerCase (toLowerCase Q) (rules this)) as [[p r]|];
    simpl; now rewrite <- app_assoc.
Qed.

(** X1: [findBestMatch] always returns, and writes two lines: the query,
    then either the first pattern of the returned rule, in the order of its
    pattern list, that the query includes case-insensitively, with the
    rule's prompt file, or that nothing matched. *)
Theorem findBestMatch_logs_first_pattern
    (this : PromptMatcher) (Q : string) (w : World) :
  match outcome (findBestMatch toLowerCase this Q) w with
  | Returned (Some r) =>
      exists before p after,
        patterns r = before ++ p :: after /\
        ci_substring toLowerCase p Q /\
        (forall p', In p' before -> ~ ci_substring toLowerCase p' Q) /\
        console (world_after (findBestMatch toLowerCase this Q) w)
        = console w ++ [DebugMatchingQuery Q;
                        DebugPatternMatchFound p (promptFile r)]
  | Returned None =>
      console (world_after (findBestMatch toLowerCase this Q) w)
      = console w ++ [DebugMatchingQuery Q; DebugNoPatternMatch Q]
  | Thrown _ => False
  end.
Proof.
  unfold outcome, world_after. rewrite findBestMatch_run. simpl.
  destruct (scanRules toLowerCase (toLowerCase Q) (rules this)) as [[p r]|] eqn:E;
    simpl; [|reflexivity].
  apply scanRules_first in E as (pre & post & _ & Hp & _).
  apply scanPatterns_first in Hp as (before & after & Hps & Hinc & Hb).
  exists before, p, after. repeat split; try assumption.
  - now apply includes_spec.
  - intros p' Hp' Hsub. rewrite List.Forall_forall in Hb.
    apply includes_spec in Hsub. rewrite (Hb p' Hp') in Hsub. discriminate.
Qed.

(** X2: what a result of [findBestMatch] means. A returned rule is a rule of
    the rule set with a pattern that occurs in the query case-insensitively,
    and no rule declared before it has such a pattern; null means that no
    pattern of any rule occurs in the query. *)
Theorem findBestMatch_result_meaning
    (this : PromptMatcher) (Q : string) (w : World) :
  match outcome (findBestMatch toLowerCase this Q) w with
  | Returned (Some r) =>
      exists pre post,
        rules this = pre ++ r :: post /\
        (exists p, In p (patterns r) /\ ci_substring toLowerCase p Q) /\
        (forall r' p', In r' pre -> In p' (patterns r') ->
                       ~ ci_substring toLowerCase p' Q)
  | Returned None =>
      forall r p, In r (rules this) -> In p (patterns r) ->
                  ~ ci_substring toLowerCase p Q
  | Thrown _ => False
  end.
Proof.
  unfold outcome. rewrite findBestMatch_run. simpl.
  destruct (scanRules toLowerCase (toLowerCase Q) (rules this)) as [[p r]|] eqn:E;
    simpl.
  - apply scanRules_first in E as (pre & post & Hrs & Hp & Hpre).
    exists pre, post. split; [assumption|]. split.
    + apply scanPatterns_Some in Hp as [Hin Hinc].
      exists p. split; [assumption | now apply includes_spec].
    + intros r' p' Hr' Hp'. rewrite List.Forall_forall in Hpre.
      now apply (scanPatterns_none_no_substring Q (patterns r') (Hpre r' Hr')).
  - intros r p Hr Hp. apply scanRules_none in E. rewrite List.Forall_forall in E.
    now apply (scanPatterns_none_no_substring Q (patterns r) (E r Hr)).
Qed.

End MatchingLoops.

Section MatchingOrder.

Variable toLowerCase : string -> string.

Lemma scanRules_app (lq : string) (rs extra : list PromptRule) :
  scanRules toLowerCase lq (rs ++ extra)
  = match scanRules toLowerCase lq rs with
    | Some found => Some found
    | None => scanRules toLowerCase lq extra
    end.
Proof.
  induction rs as [|r rs IH]; simpl; [reflexivity|].
  now destruct (scanPatterns toLowerCase lq (patterns r)).
Qed.

(** X3: rules appended to the rule set never take over a query: a query
    that found a rule still finds that rule, and a query that found none is
    answered by the appended rules alone. *)
Theorem findBestMatch_appended_rules
    (this : PromptMatcher) (extra : list PromptRule) (Q : string) (w : World) :
  outcome (findBestMatch toLowerCase {| rules := rules this ++ extra |} Q) w
  = match outcome (findBestMatch toLowerCase this Q) w with
    | Returned (Some r) => Returned (Some r)
    | _ => outcome (findBestMatch toLowerCase {| rules := extra |} Q) w
    end.
Proof.
  unfold outcome. rewrite !findBestMatch_run. simpl. rewrite scanRules_app.
  now destruct (scanRules toLowerCase (toLowerCase Q) (rules this)) as [[p r]|].
Qed.

Lemma substring_of_trans (a b c : string) :
  substring_of a b -> substring_of b c -> substring_of a c.
Proof.
  intros (x & y & ->) (u & v & ->).
  exists (u +:+ x), (y +:+ v). now rewrite !append_assoc.
Qed.

Lemma ruleMatches_longer (lq lq' : string) (r : PromptRule) :
  substring_of lq lq' ->
  ruleMatches toLowerCase lq r = true ->
  ruleMatches toLowerCase lq' r = true.
Proof.
  intros Hsub. rewrite !ruleMatches_true. intros (p & Hp & Hinc).
  exists p. split; [assumption|]. apply includes_spec.
  apply includes_spec in Hinc. eapply substring_of_trans; eauto.
Qed.

(** When every rule that matches one query matches another, the other
    query stops at the same rule or at an earlier one. *)
Lemma matchIndex_mono (lq lq' : string) (rs : list PromptRule) (i : nat) :
  (forall r, In r rs -> ruleMatches toLowerCase lq r = true ->
             ruleMatches toLowerCase lq' r = true) ->
  matchIndex toLowerCase lq rs = Some i ->
  exists j, j <= i /\ matchIndex toLowerCase lq' rs = Some j.
Proof.
  revert i. induction rs as [|r rs IH]; intros i Hmono; simpl; [discriminate|].
  destruct (ruleMatches toLowerCase lq r) eqn:E.
  - intros [= <-]. rewrite (Hmono r (or_introl eq_refl) E).
    exists 0. split; [lia | reflexivity].
  - destruct (matchIndex toLowerCase lq rs) as [k|] eqn:Ek; [|discriminate].
    intros [= <-].
    destruct (IH k (fun r' Hr' => Hmono r' (or_intror Hr')) eq_refl)
      as (j & Hj & Ej).
    destruct (ruleMatches toLowerCase lq' r).
    + exists 0. split; [lia | reflexivity].
    + exists (S j). rewrite Ej. split; [lia | reflexivity].
Qed.

(** Replacing a rule by one that matches the same lower-cased query leaves
    the first matching position where it was. *)
Lemma matchIndex_replace_rule (lq : string) (pre post : list PromptRule)
      (r r' : PromptRule) :
  ruleMatches toLowerCase lq r' = ruleMatches toLowerCase lq r ->
  matchIndex toLowerCase lq (pre ++ r' :: post)
  = matchIndex toLowerCase lq (pre ++ r :: post).
Proof.
  intros E. induction pre as [|r0 pre IH]; simpl; [now rewrite E|].
  now rewrite IH.
Qed.

(** X4: a pattern of a rule that contains, lower-cased, another pattern of
    the same rule is redundant: without it every query finds the rule at
    the same position of the declaration order, or still finds none. *)
Theorem findBestMatch_redundant_pattern
    (this this' : PromptMatcher) (pre post : list PromptRule)
    (r : PromptRule) (before after : list string) (p p' : string)
    (Q : string) (w w' : World) :
  rules this = pre ++ r :: post ->
  patterns r = before ++ p :: after ->
  In p' (before ++ after) ->
  substring_of (toLowerCase p') (toLowerCase p) ->
  rules this' = pre ++ {| patterns := before ++ after;
                          promptFile := promptFile r;
                          description := description r |} :: post ->
  exists i : option nat,
    outcome (findBestMatch toLowerCase this Q) w
    = Returned (ruleAt (rules this) i) /\
    outcome (findBestMatch toLowerCase this' Q) w'
    = Returned (ruleAt (rules this') i).
Proof.
  intros Hrules Hps Hp' Hsub Hrules'.
  exists (matchIndex toLowerCase (toLowerCase Q) (rules this)).
  rewrite !findBestMatch_outcome. split; [reflexivity|].
  rewrite Hrules', Hrules. f_equal. f_equal.
  apply matchIndex_replace_rule. apply eq_true_iff_eq.
  rewrite !ruleMatches_true. simpl. rewrite Hps. split.
  - intros (q & Hq & Hinc). exists q. split; [|assumption].
    apply in_app_iff in Hq as [Hq|Hq]; apply in_app_iff; [now left|].
    right. now right.
  - intros (q & Hq & Hinc).
    apply in_app_iff in Hq as [Hq|[<-|Hq]].
    + exists q. split; [apply in_app_iff; now left | assumption].
    + exists p'. split; [assumption|]. apply includes_spec.
      apply includes_spec in Hinc. eapply substring_of_trans; eauto.
    + exists q. split; [apply in_app_iff; now right | assumption].
Qed.

(** X5: a longer query never loses a match: when a query finds a rule,
    every query whose lower-cased text contains the lower-cased text of
    that query finds that rule or a rule declared before it. *)
Theorem findBestMatch_longer_query
    (this : PromptMatcher) (Q Q' : string) (r : PromptRule) (w w' : World) :
  outcome (findBestMatch toLowerCase this Q) w = Returned (Some r) ->
  substring_of (toLowerCase Q) (toLowerCase Q') ->
  exists (i j : nat) (r' : PromptRule),
    j <= i /\
    rules this !! i = Some r /\
    rules this !! j = Some r' /\
    outcome (findBestMatch toLowerCase this Q') w' = Returned (Some r').
Proof.
  rewrite !findBestMatch_outcome. intros [= H] Hsub.
  destruct (matchIndex toLowerCase (toLowerCase Q) (rules this))
    as [i|] eqn:Ei; [|discriminate].
  simpl in H.
  destruct (matchIndex_mono (toLowerCase Q) (toLowerCase Q') (rules this) i)
    as (j & Hj & Ej); [|assumption|].
  { intros r0 _. now apply ruleMatches_longer. }
  assert (Hlt : j < length (rules this)).
  { apply lookup_lt_Some in H. lia. }
  apply lookup_lt_is_Some in Hlt as [r' Hr'].
  exists i, j, r'. rewrite Ej. simpl. rewrite Hr'. auto.
Qed.

End MatchingOrder.

(** On strings of ASCII code units lower-casing goes character by
    character. *)
Lemma asciiToLowerCase_append (a b : string) :
  asciiToLowerCase (a +:+ b) = asciiToLowerCase a +:+ asciiToLowerCase b.
Proof.
  induction a as [|c a IH]; [reflexivity|].
  rewrite append_cons. simpl. now rewrite IH, append_cons.
Qed.

Lemma includes_trans (s p q : string) :
  includes s p = true -> includes p q = true -> includes s q = true.
Proof.
  rewrite !includes_spec. intros H1 H2.
  exact (substring_of_trans q p s H2 H1).
Qed.

Section ConfiguredPatterns.

Variable toLowerCase : string -> string.

(** X6: the 31 configured patterns come down to 15. The configured patterns
    are lower-case already; with a lower-casing that leaves them as they
    are, the configured matcher finds its rule exactly for the queries
    whose lower-cased text includes one of [triggerPatterns]. *)
Theorem configured_matcher_triggers (Q : string) (w : World) :
  Forall (fun p => toLowerCase p = p) (patterns configuredRule) ->
  outcome (findBestMatch toLowerCase PromptMatcher_new Q) w
  = Returned
      (if existsb (fun p => includes (toLowerCase Q) p) triggerPatterns
       then head (rules PromptMatcher_new) else None).
Proof.
  intros Hpat. rewrite List.Forall_forall in Hpat.
  rewrite findBestMatch_outcome. f_equal.
  set (lq := toLowerCase Q).
  assert (E : ruleMatches toLowerCase lq
                (mkPromptRule
                   (patterns configuredRule)
                   "authorization-model.md"
                   "Author authorization models with OpenFGA")
              = existsb (fun p => includes lq p) triggerPatterns).
  { apply eq_true_iff_eq. rewrite ruleMatches_true, existsb_exists. split.
    - intros (p & Hp & Hinc). cbn [patterns] in Hp.
      rewrite (Hpat p Hp) in Hinc.
      assert (Hall : forallb
                (fun p => existsb (fun t => includes p t) triggerPatterns)
                (patterns configuredRule) = true)
        by (vm_compute; reflexivity).
      rewrite forallb_forall in Hall. specialize (Hall p Hp).
      apply existsb_exists in Hall as (t & Ht & Hpt).
      exists t. split; [assumption|]. eapply includes_trans; eauto.
    - intros (t & Ht & Hinc).
      assert (Hall : forallb
                (fun t => existsb (fun p => String.eqb p t)
                            (patterns configuredRule))
                triggerPatterns = true)
        by (vm_compute; reflexivity).
      rewrite forallb_forall in Hall. specialize (Hall t Ht).
      apply existsb_exists in Hall as (p & Hp & Hpt).
      apply String.eqb_eq in Hpt. exists p. cbn [patterns].
      split; [assumption|]. now rewrite (Hpat p Hp), Hpt. }
  change (rules PromptMatcher_new) with
    [mkPromptRule
       (patterns configuredRule)
       "authorization-model.md" "Author authorization models with OpenFGA"].
  cbn [matchIndex]. rewrite E.
  now destruct (existsb _ triggerPatterns).
Qed.

End ConfiguredPatterns.

(** ** The lines a call writes *)

Lemma loadPromptContent_run (this : PromptMatcher) (f : string) (w : World) :
  loadPromptContent this f w
  = (match readResult w (promptPath (cwd w) f) with
     | inr t => Returned t
     | inl e => Thrown (loadError f e)
     end,
     {| cwd := cwd w; files := files w;
        console := console w ++
          [DebugLoadingPromptFile (promptPath (cwd w) f);
           loadResultLine f (readResult w (promptPath (cwd w) f))] |}).
Proof.
  unfold loadPromptContent, bind, try_catch, process_cwd, console_error,
    fs_readFile, ret, throw, readResult, promptPath, loadResultLine.
  simpl. destruct (files w !! _) as [[t|e]|]; simpl;
    now rewrite <- app_assoc.
Qed.

Section Traces.

Variable toLowerCase : string -> string.

(** X7: what [getContextForQuery] writes and reads. After the two lines of
    [findBestMatch] it writes nothing when no rule matched; for a matched
    rule it writes the path [path.join(cwd, 'prompts', rule.promptFile)] it
    is about to read, then one line with the length of the text read or
    with the error of the read. It changes no file, and the file system
    matters to it only at that path of a matched rule: in a world with
    another file system, the same at that path when a rule matched, it
    returns or throws the same and writes the same lines. *)
Theorem getContextForQuery_trace
    (this : PromptMatcher) (Q : string) (w : World) :
  console (world_after (getContextForQuery toLowerCase this Q) w)
  = console (world_after (findBestMatch toLowerCase this Q) w) ++
    match outcome (findBestMatch toLowerCase this Q) w with
    | Returned (Some r) =>
        let filePath := Path.join [cwd w; "prompts"; promptFile r] in
        [DebugLoadingPromptFile filePath;
         loadResultLine (promptFile r) (readResult w filePath)]
    | _ => []
    end /\
  files (world_after (getContextForQuery toLowerCase this Q) w) = files w /\
  forall fs' : gmap string FileEntry,
    match outcome (findBestMatch toLowerCase this Q) w with
    | Returned (Some r) =>
        fs' !! Path.join [cwd w; "prompts"; promptFile r]
        = files w !! Path.join [cwd w; "prompts"; promptFile r]
    | _ => True
    end ->
    outcome (getContextForQuery toLowerCase this Q) (withFiles w fs')
    = outcome (getContextForQuery toLowerCase this Q) w /\
    console (world_after (getContextForQuery toLowerCase this Q)
                         (withFiles w fs'))
    = console (world_after (getContextForQuery toLowerCase this Q) w).
Proof.
  assert (Hrun : forall w0 : World,
            getContextForQuery toLowerCase this Q w0
            = (outcome (getContextForQuery toLowerCase this Q) w0,
               {| cwd := cwd w0; files := files w0;
                  console := console w0 ++
                    [DebugMatchingQuery Q;
                     match scanRules toLowerCase (toLowerCase Q) (rules this) with
                     | Some (p, r) => DebugPatternMatchFound p (promptFile r)
                     | None => DebugNoPatternMatch Q
                     end] ++
                    match scanRules toLowerCase (toLowerCase Q) (rules this) with
                    | Some (_, r) =>
                        [DebugLoadingPromptFile
                           (Path.join [cwd w0; "prompts"; promptFile r]);
                         loadResultLine (promptFile r)
                           (readResult w0
                              (Path.join [cwd w0; "prompts"; promptFile r]))]
                    | None => []
                    end |})).
  { intros w0.
    unfold outcome, getContextForQuery, bind, try_catch.
    rewrite findBestMatch_run. simpl.
    destruct (scanRules toLowerCase (toLowerCase Q) (rules this)) as [[p r]|];
      simpl; [|reflexivity].
    rewrite loadPromptContent_run. simpl. rewrite <- promptPath_join.
    unfold readResult. simpl. rewrite <- app_assoc. simpl.
    destruct (files w0 !! _) as [[t|e]|]; reflexivity. }
  assert (Hfind : outcome (findBestMatch toLowerCase this Q) w
                  = Returned (option_map snd
                       (scanRules toLowerCase (toLowerCase Q) (rules this)))).
  { unfold outcome. now rewrite findBestMatch_run. }
  split; [|split].
  - unfold world_after at 1. rewrite Hrun. cbn [snd console].
    unfold world_after. rewrite findBestMatch_run. cbn [snd console].
    rewrite Hfind.
    destruct (scanRules toLowerCase (toLowerCase Q) (rules this))
      as [[p r]|]; simpl.
    + now rewrite <- app_assoc.
    + now rewrite app_nil_r.
  - unfold world_after. now rewrite Hrun.
  - intros fs' Hfs. rewrite Hfind in Hfs.
    assert (Hread : match scanRules toLowerCase (toLowerCase Q) (rules this) with
                    | Some (_, r) =>
                        readResult (withFiles w fs')
                          (Path.join [cwd w; "prompts"; promptFile r])
                        = readResult w
                            (Path.join [cwd w; "prompts"; promptFile r])
                    | None => True
                    end).
    { destruct (scanRules toLowerCase (toLowerCase Q) (rules this))
        as [[p r]|]; [|exact I].
      unfold readResult. simpl in *. now rewrite Hfs. }
    split.
    + rewrite !getContextForQuery_outcome.
      pose proof (findBestMatch_outcome toLowerCase this Q w) as Ho.
      rewrite Hfind in Ho. injection Ho as Ho. rewrite <- Ho.
      destruct (scanRules toLowerCase (toLowerCase Q) (rules this))
        as [[p r]|]; [|reflexivity].
      simpl. rewrite !promptPath_join. simpl in Hread. now rewrite Hread.
    + unfold world_after. rewrite !Hrun. cbn [snd console cwd withFiles].
      destruct (scanRules toLowerCase (toLowerCase Q) (rules this))
        as [[p r]|]; [|reflexivity].
      now rewrite Hread.
Qed.

(** X8: a context returned with [matchFound] true holds the rule
    [findBestMatch] returns for the query and, as content, the text of the
    file at [path.join(cwd, 'prompts', rule.promptFile)]. *)
Theorem getContextForQuery_match_content
    (this : PromptMatcher) (Q : string) (w : World) (ctx : QueryContext) :
  outcome (getContextForQuery toLowerCase this Q) w = Returned ctx ->
  matchFound ctx = true ->
  exists (r : PromptRule) (t : string),
    outcome (findBestMatch toLowerCase this Q) w = Returned (Some r) /\
    files w !! Path.join [cwd w; "prompts"; promptFile r] = Some (File t) /\
    ctx = {| rule := Some r; content := Some t; matchFound := true |}.
Proof.
  rewrite getContextForQuery_outcome, findBestMatch_outcome.
  destruct (ruleAt _ _) as [r|]; [|intros [= <-]; discriminate].
  rewrite promptPath_join. unfold readResult.
  destruct (files w !! _) as [[t|e]|] eqn:E; try discriminate.
  intros [= <-] _. now exists r, t.
Qed.

(** X9: when the document of the matched rule does not exist,
    [getContextForQuery] throws an error whose message ends with the error
    of the read, which names the path that was tried. *)
Theorem getContextForQuery_missing_document
    (this : PromptMatcher) (Q : string) (r : PromptRule) (w : World) :
  outcome (findBestMatch toLowerCase this Q) w = Returned (Some r) ->
  files w !! Path.join [cwd w; "prompts"; promptFile r] = None ->
  outcome (getContextForQuery toLowerCase this Q) w
  = Thrown (new_Error
              ("Error loading context: Error: Failed to load prompt file "
               +:+ promptFile r
               +:+ ": Error: ENOENT: no such file or directory, open '"
               +:+ Path.join [cwd w; "prompts"; promptFile r] +:+ "'")).
Proof.
  rewrite findBestMatch_outcome. intros [= Hr] Hnone.
  rewrite getContextForQuery_outcome, Hr, promptPath_join.
  unfold readResult. rewrite Hnone. reflexivity.
Qed.

End Traces.

(** ** References that stay in the documents directory *)

Lemma fold_step_no_dotdot (allow : bool) (segs st : list string) :
  ~ In ".." segs ->
  exists ext,
    fold_left (Path.step allow) segs st = ext ++ st /\
    (forall s, In s ext -> In s segs).
Proof.
  revert st. induction segs as [|seg segs IH]; intros st Hno; simpl.
  - exists []. split; [reflexivity | intros s []].
  - assert (Hseg : seg <> "..") by (intros ->; apply Hno; now left).
    assert (Hrest : ~ In ".." segs) by (intros H; apply Hno; now right).
    apply String.eqb_neq in Hseg.
    destruct (IH (Path.step allow st seg) Hrest) as (ext & Hext & Hin).
    rewrite Hext. unfold Path.step. rewrite Hseg.
    destruct (String.eqb seg "" || String.eqb seg ".").
    + exists ext. split; [reflexivity | auto].
    + exists (ext ++ [seg]). split; [now rewrite <- app_assoc|].
      intros s Hs. apply in_app_iff in Hs as [Hs|[<-|[]]]; auto.
Qed.

Lemma concat_app_nonempty (l1 l2 : list string) :
  l1 <> [] ->
  String.concat "/" (l1 ++ l2)
  = String.concat "/" l1
    +:+ match l2 with
        | [] => ""
        | _ => "/" +:+ String.concat "/" l2
        end.
Proof.
  induction l1 as [|x l1 IH]; [congruence|]. intros _.
  destruct l1 as [|y l1].
  - destruct l2; [now rewrite append_nil_r | reflexivity].
  - change ((x :: y :: l1) ++ l2) with (x :: y :: (l1 ++ l2)).
    rewrite !concat_cons2. change (y :: l1 ++ l2) with ((y :: l1) ++ l2).
    rewrite IH by discriminate. now rewrite !append_assoc.
Qed.

Lemma append_not_empty_l (a b : string) : a <> "" -> a +:+ b <> "".
Proof. destruct a; [congruence | discriminate]. Qed.

(** A document reference without a [..] segment cannot leave the
    documents directory: the path [loadPromptContent] reads is the
    directory [path.join(cwd, 'prompts')] itself or a path below it. *)
Theorem promptPath_inside_without_dotdot (dir documentRef : string) :
  ~ In ".." (Path.split documentRef) ->
  exists rest,
    Path.join [dir; "prompts"; documentRef]
    = Path.join [dir; "prompts"] +:+ rest /\
    (rest = "" \/ startsWith rest "/" = true) /\
    ~ In ".." (Path.split rest).
Proof.
  intros Hno.
  assert (Hname : "prompts" <> "" /\ "prompts" <> "." /\ "prompts" <> "..")
    by (repeat split; discriminate).
  set (A := if String.eqb dir "" then "prompts" else dir +:+ "/" +:+ "prompts").
  set (segs := if String.eqb dir "" then [] else Path.split dir).
  assert (Hsplit : Path.split A = segs ++ ["prompts"]).
  { unfold A, segs. destruct (String.eqb dir ""); [reflexivity|].
    now rewrite split_app_sep. }
  assert (Hdir : Path.join [dir; "prompts"] = Path.normalize A).
  { unfold Path.join, A. simpl. now destruct (String.eqb dir ""). }
  assert (Hall : Path.join [dir; "prompts"; documentRef]
                 = Path.normalize (if String.eqb documentRef "" then A
                                   else A +:+ "/" +:+ documentRef)).
  { unfold Path.join, A. simpl.
    destruct (String.eqb dir ""), (String.eqb documentRef ""); simpl;
      try reflexivity. now rewrite !append_assoc. }
  rewrite Hall, Hdir.
  destruct (String.eqb documentRef "") eqn:Eref.
  { exists "". rewrite append_nil_r. repeat split; auto.
    simpl. intros [H|[]]. discriminate. }
  apply String.eqb_neq in Eref.
  pose proof (name_last_not_empty A "prompts" segs Hsplit Hname) as HA.
  pose proof (name_last_segments A "prompts" segs Hsplit Hname) as Hst.
  rewrite (normalize_name_last A "prompts" segs Hsplit Hname).
  set (st := "prompts" :: Path.normalizeSegments (negb (Path.isAbsolute A)) segs)
    in *.
  destruct (fold_step_no_dotdot (negb (Path.isAbsolute A))
              (Path.split documentRef) st Hno) as (ext & Hext & Hin).
  assert (Hextns : Forall noSlash (rev ext)).
  { apply Forall_rev, List.Forall_forall. intros s Hs.
    pose proof (split_segments_noSlash documentRef) as Hns.
    rewrite List.Forall_forall in Hns. auto. }
  assert (Hextdd : ~ In ".." (rev ext)).
  { intros H. apply in_rev in H. auto. }
  assert (Hrev : rev st <> [])
    by (unfold st; simpl; intros E; now apply app_eq_nil in E as [_ E]).
  assert (Hp : String.concat "/" (rev st) <> "").
  { destruct (concat_snoc (rev (tl st)) "prompts") as [u Hu].
    change (rev (tl st) ++ ["prompts"]) with (rev st) in Hu. rewrite Hu.
    apply append_not_empty_r. discriminate. }
  unfold Path.normalize, Path.normalizeString.
  assert (Hne : A +:+ "/" +:+ documentRef <> "")
    by (apply append_not_empty_l; assumption).
  apply String.eqb_neq in Hne. rewrite Hne.
  rewrite (isAbsolute_app A _ HA), split_app_sep, normalizeSegments_app.
  rewrite Hst, Hext, rev_app_distr, (concat_app_nonempty _ _ Hrev).
  set (tailstr := match rev ext with
                  | [] => ""
                  | _ => "/" +:+ String.concat "/" (rev ext)
                  end).
  assert (Hne2 : String.concat "/" (rev st) +:+ tailstr <> "")
    by (apply append_not_empty_l; assumption).
  apply String.eqb_neq in Hne2. rewrite Hne2.
  set (trail := if Path.endsWithSeparator (A +:+ "/" +:+ documentRef)
                then "/" else "").
  exists (tailstr +:+ trail). split; [|split].
  - unfold render, trail.
    destruct (Path.endsWithSeparator (A +:+ "/" +:+ documentRef)),
      (Path.isAbsolute A); rewrite ?append_nil_r, ?append_assoc; reflexivity.
  - unfold tailstr, trail. destruct (rev ext).
    + rewrite append_nil_l. destruct (Path.endsWithSeparator _); auto.
    + right. reflexivity.
  - unfold tailstr, trail. destruct (rev ext) as [|x l] eqn:El.
    + rewrite append_nil_l. destruct (Path.endsWithSeparator _); simpl;
        intros H; repeat (destruct H as [H|H]; [discriminate|]); exact H.
    + rewrite append_assoc, split_leading_sep.
      destruct (Path.endsWithSeparator _).
      * rewrite <- (append_nil_r "/"), split_app_sep.
        rewrite split_concat by (assumption || discriminate).
        intros [H|H]; [discriminate|]. apply in_app_iff in H as [H|[H|[]]];
          [auto | discriminate].
      * rewrite append_nil_r, split_concat by (assumption || discriminate).
        intros [H|H]; [discriminate | auto].
Qed.

(** X10: a document reference without a [..] segment is read inside the
    documents directory: [loadPromptContent] reads [path.join(cwd,
    'prompts')] itself or a path below it that has no [..] segment. *)
Theorem loadPromptContent_inside_without_dotdot
    (this : PromptMatcher) (documentRef : string) (w : World) :
  ~ In ".." (Path.split documentRef) ->
  exists rest,
    (rest = "" \/ startsWith rest "/" = true) /\
    ~ In ".." (Path.split rest) /\
    outcome (loadPromptContent this documentRef) w
    = match readResult w (Path.join [cwd w; "prompts"] +:+ rest) with
      | inr t => Returned t
      | inl e => Thrown (loadError documentRef e)
      end.
Proof.
  intros Hno.
  destruct (promptPath_inside_without_dotdot (cwd w) documentRef Hno)
    as (rest & Hpath & Hrest & Hdd).
  exists rest. repeat split; try assumption.
  now rewrite loadPromptContent_outcome, promptPath_join, Hpath.
Qed.

Lemma fold_step_names (allow : bool) (names st : list string) :
  Forall isName names ->
  fold_left (Path.step allow) names st = rev names ++ st.
Proof.
  revert st. induction names as [|n names IH]; intros st Hn; [reflexivity|].
  inversion Hn as [|? ? (_ & H1 & H2 & H3) Hrest]; subst. simpl.
  rewrite (IH _ Hrest), <- app_assoc. f_equal.
  unfold Path.step. apply String.eqb_neq in H1, H2, H3.
  now rewrite H1, H2, H3.
Qed.

Lemma prompt_file_path (names : list string) (name : string) :
  Forall isName names -> isName name ->
  Path.join ["/" +:+ String.concat "/" names; "prompts"; name]
  = "/" +:+ String.concat "/" (names ++ ["prompts"; name]).
Proof.
  intros Hnames (Hns & Hne & Hnd & Hndd).
  set (dir := "/" +:+ String.concat "/" names).
  set (P := dir +:+ "/" +:+ "prompts" +:+ "/" +:+ name).
  set (sd := "" :: match names with [] => [""] | _ => names end).
  assert (Hsd : Path.split dir = sd).
  { unfold dir, sd. rewrite split_leading_sep. f_equal.
    destruct names as [|n names'] eqn:E; [reflexivity|].
    apply split_concat; [discriminate|].
    eapply List.Forall_impl; [|exact Hnames]. now intros a (Ha & _). }
  assert (Hsplit : Path.split P = (sd ++ ["prompts"]) ++ [name]).
  { unfold P. rewrite split_app_sep, split_app_sep, Hsd.
    rewrite (split_noSlash name Hns), <- app_assoc. reflexivity. }
  assert (Hjoin : Path.join [dir; "prompts"; name] = Path.normalize P).
  { unfold Path.join. simpl. apply String.eqb_neq in Hne. rewrite Hne.
    reflexivity. }
  rewrite Hjoin.
  rewrite (normalize_name_last P name (sd ++ ["prompts"]) Hsplit
             (conj Hne (conj Hnd Hndd))).
  assert (Habs : Path.isAbsolute P = true) by reflexivity.
  rewrite Habs. simpl negb.
  assert (Hst : Path.normalizeSegments false (sd ++ ["prompts"])
                = "prompts" :: rev names).
  { unfold Path.normalizeSegments, sd. rewrite fold_left_app. simpl.
    destruct names as [|n names'] eqn:E; [reflexivity|].
    rewrite <- E in *. now rewrite fold_step_names, app_nil_r. }
  rewrite Hst. unfold render. simpl rev. rewrite rev_involutive.
  now rewrite <- app_assoc.
Qed.

(** X11: with the working directory [/d1/.../dn] and a prompt file that is
    a plain name, [loadPromptContent] reads
    [/d1/.../dn/prompts/<promptFile>]: it returns the text of that file, or
    throws when the read fails. *)
Theorem loadPromptContent_reads_prompts_file
    (this : PromptMatcher) (names : list string) (name : string) (w : World) :
  cwd w = "/" +:+ String.concat "/" names ->
  Forall isName names ->
  isName name ->
  outcome (loadPromptContent this name) w
  = match readResult w ("/" +:+ String.concat "/" (names ++ ["prompts"; name])) with
    | inr t => Returned t
    | inl e => Thrown (loadError name e)
    end.
Proof.
  intros Hcwd Hnames Hname.
  rewrite loadPromptContent_outcome, promptPath_join, Hcwd.
  now rewrite prompt_file_path.
Qed.

(** ** The replies of the handlers *)

Lemma substring_of_refl (s : string) : substring_of s s.
Proof. exists "", "". now rewrite append_nil_r. Qed.

Lemma substring_of_app_l (x a b : string) :
  substring_of x a -> substring_of x (a +:+ b).
Proof. intros (u & v & ->). exists u, (v +:+ b). now rewrite !append_assoc. Qed.

Lemma substring_of_app_r (x a b : string) :
  substring_of x b -> substring_of x (a +:+ b).
Proof. intros (u & v & ->). exists (a +:+ u), v. now rewrite !append_assoc. Qed.

(** An element of a joined array occurs in the joined string. *)
Lemma substring_of_concat (sep x : string) (l : list string) :
  In x l -> substring_of x (String.concat sep l).
Proof.
  induction l as [|y l IH]; [intros []|].
  intros [->|Hx].
  - destruct l; [apply substring_of_refl|].
    simpl. apply substring_of_app_l, substring_of_refl.
  - destruct l as [|z l]; [destruct Hx|].
    change (String.concat sep (y :: z :: l))
      with (y +:+ sep +:+ String.concat sep (z :: l)).
    now apply substring_of_app_r, substring_of_app_r, IH.
Qed.

Section ToolHandlerFacts.

Variable toLowerCase : string -> string.

Lemma handleGetContextForQuery_outcome
      (pm : PromptMatcher) (Q : string) (w : World) :
  outcome (handleGetContextForQuery toLowerCase pm Q) w
  = match outcome (getContextForQuery toLowerCase pm Q) w with
    | Thrown e => Thrown e
    | Returned ctx =>
        match rule ctx, content ctx, matchFound ctx with
        | Some r, Some t, true =>
            Returned
              {| Tool.content :=
                   [ {| Tool.type := "text";
                        Tool.text :=
                          "Context found for query: " +:+ dquote +:+ Q
                          +:+ dquote +:+ newline +:+ newline
                          +:+ "Using prompt: " +:+ description r
                          +:+ newline +:+ newline +:+ "---"
                          +:+ newline +:+ newline +:+ t |} ];
                 Tool.isError := None |}
        | _, _, _ =>
            Returned
              {| Tool.content :=
                   [ {| Tool.type := "text";
                        Tool.text :=
                          "No specific context found for query: " +:+ dquote
                          +:+ Q +:+ dquote +:+ newline +:+ newline
                          +:+ "Available context types:" +:+ newline
                          +:+ String.concat newline
                                (map contextTypeLine (rules pm)) |} ];
                 Tool.isError := None |}
        end
    end.
Proof.
  pose proof (getContextForQuery_outcome toLowerCase pm Q w) as Hc.
  unfold handleGetContextForQuery, outcome, bind in *.
  destruct (getContextForQuery toLowerCase pm Q w) as [[ctx|e] w1];
    simpl in *; [|reflexivity].
  destruct (ruleAt _ _) as [r|].
  - destruct (readResult w _) as [e|t]; [discriminate|].
    injection Hc as ->. reflexivity.
  - injection Hc as ->. reflexivity.
Qed.

(** X12: a [tools/call] request is always answered: the handler returns a
    result for every tool name and query. The result carries
    [isError: true] exactly when the tool name is unknown, with the text
    ["Error: Unknown tool: <name>"], or when [get_context_for_query] could
    not load the document of the matched rule, with the text ["Error: "]
    followed by the message of the error [getContextForQuery] threw. *)
Theorem callToolHandler_always_answers
    (pm : PromptMatcher) (name query : string) (w : World) :
  exists res,
    outcome (callToolHandler toLowerCase pm name query) w = Returned res /\
    (Tool.isError res = Some true <->
       (name <> "get_context_for_query" /\ name <> "list_available_contexts") \/
       (name = "get_context_for_query" /\
        exists e, outcome (getContextForQuery toLowerCase pm query) w = Thrown e)) /\
    (name <> "get_context_for_query" -> name <> "list_available_contexts" ->
     res = {| Tool.content :=
                [ {| Tool.type := "text";
                     Tool.text := "Error: " +:+ "Unknown tool: " +:+ name |} ];
              Tool.isError := Some true |}) /\
    (forall e, name = "get_context_for_query" ->
               outcome (getContextForQuery toLowerCase pm query) w = Thrown e ->
               res = {| Tool.content :=
                          [ {| Tool.type := "text";
                               Tool.text := "Error: " +:+ err_message e |} ];
                        Tool.isError := Some true |}).
Proof.
  unfold callToolHandler.
  destruct (String.eqb name "get_context_for_query") eqn:E1.
  - apply String.eqb_eq in E1. subst name.
    pose proof (handleGetContextForQuery_outcome pm query w) as Hh.
    unfold outcome, try_catch, ret in *.
    destruct (handleGetContextForQuery toLowerCase pm query w) as [[res|e] w1];
      simpl in *.
    + exists res. split; [reflexivity|].
      destruct (fst (getContextForQuery toLowerCase pm query w)) as [ctx|e'];
        [|discriminate].
      assert (Hnone : Tool.isError res = None).
      { destruct (rule ctx), (content ctx), (matchFound ctx);
          injection Hh as ->; reflexivity. }
      split; [|split].
      * rewrite Hnone. split; [discriminate|].
        intros [[H _]|[_ [e' He']]]; [congruence | discriminate].
      * congruence.
      * discriminate.
    + eexists. split; [reflexivity|].
      destruct (fst (getContextForQuery toLowerCase pm query w)) as [ctx|e'].
      { destruct (rule ctx), (content ctx), (matchFound ctx); discriminate. }
      injection Hh as ->. simpl. split; [|split].
      * split; [intros _; right; eauto | reflexivity].
      * congruence.
      * intros e0 _ [= <-]. reflexivity.
  - apply String.eqb_neq in E1.
    destruct (String.eqb name "list_available_contexts") eqn:E2.
    + apply String.eqb_eq in E2. subst name.
      eexists. split; [reflexivity|]. simpl. split; [|split].
      * split; [discriminate|]. intros [[_ H]|[H _]]; congruence.
      * congruence.
      * congruence.
    + apply String.eqb_neq in E2.
      eexists. split; [reflexivity|]. simpl. split; [|split].
      * split; [intros _; now left | reflexivity].
      * reflexivity.
      * congruence.
Qed.

End ToolHandlerFacts.

Ltac found_between a b :=
  exists a, b; rewrite ?append_assoc; reflexivity.

Section ReplyTexts.

Variable toLowerCase : string -> string.

(** X13: the reply of [handleGetContextForQuery]. When the engine returns a
    match, the reply is one text item made of the query in quotes, the
    description of the rule and, at its end, the document text unchanged.
    When it returns no match, the reply is one text item in which every
    rule of the matcher appears with its description and each of its
    patterns. Neither reply carries [isError]. *)
Theorem handleGetContextForQuery_reply
    (pm : PromptMatcher) (Q : string) (w : World) (ctx : QueryContext) :
  outcome (getContextForQuery toLowerCase pm Q) w = Returned ctx ->
  exists txt,
    outcome (handleGetContextForQuery toLowerCase pm Q) w
    = Returned {| Tool.content := [ {| Tool.type := "text"; Tool.text := txt |} ];
                  Tool.isError := None |} /\
    substring_of (dquote +:+ Q +:+ dquote) txt /\
    match rule ctx, content ctx with
    | Some r, Some t =>
        (exists head, txt = head +:+ t /\
                      substring_of ("Using prompt: " +:+ description r) head)
    | _, _ =>
        forall r, In r (rules pm) ->
          substring_of (description r) txt /\
          forall p, In p (patterns r) -> substring_of p txt
    end.
Proof.
  intros Hctx.
  pose proof (getContextForQuery_outcome toLowerCase pm Q w) as Hc.
  rewrite Hctx in Hc.
  rewrite handleGetContextForQuery_outcome, Hctx.
  assert (Hshape :
            (exists r t, ctx = {| rule := Some r; content := Some t;
                                  matchFound := true |}) \/
            ctx = {| rule := None; content := None; matchFound := false |}).
  { destruct (ruleAt _ _) as [r|].
    - destruct (readResult w _) as [e|t]; [discriminate|].
      injection Hc as ->. left. eauto.
    - injection Hc as ->. now right. }
  destruct Hshape as [(r & t & ->)| ->]; simpl.
  - eexists. split; [reflexivity|]. split.
    + found_between "Context found for query: "
        (newline +:+ newline +:+ "Using prompt: " +:+ description r
         +:+ newline +:+ newline +:+ "---" +:+ newline +:+ newline +:+ t).
    + exists ("Context found for query: " +:+ dquote +:+ Q +:+ dquote
              +:+ newline +:+ newline +:+ "Using prompt: " +:+ description r
              +:+ newline +:+ newline +:+ "---" +:+ newline +:+ newline).
      split; [now rewrite ?append_assoc|].
      found_between ("Context found for query: " +:+ dquote +:+ Q +:+ dquote
                     +:+ newline +:+ newline)
        (newline +:+ newline +:+ "---" +:+ newline +:+ newline).
  - eexists. split; [reflexivity|]. split.
    + found_between "No specific context found for query: "
        (newline +:+ newline +:+ "Available context types:" +:+ newline
         +:+ String.concat newline (map contextTypeLine (rules pm))).
    + intros r Hr.
      assert (Hin : forall x, substring_of x (contextTypeLine r) ->
                substring_of x
                  ("No specific context found for query: " +:+ dquote
                   +:+ Q +:+ dquote +:+ newline +:+ newline
                   +:+ "Available context types:" +:+ newline
                   +:+ String.concat newline (map contextTypeLine (rules pm)))).
      { intros x Hx. do 8 apply substring_of_app_r.
        eapply substring_of_trans; [exact Hx|].
        apply substring_of_concat, in_map, Hr. }
      split.
      * apply Hin. unfold contextTypeLine.
        found_between "- "
          (" (patterns: " +:+ String.concat ", " (patterns r) +:+ ")").
      * intros p Hp. apply Hin. unfold contextTypeLine.
        do 3 apply substring_of_app_r. apply substring_of_app_l.
        now apply substring_of_concat.
Qed.

End ReplyTexts.

(** X14: [handleListAvailableContexts] cannot fail: it returns one text
    item, without [isError], in which every rule of the matcher has its
    block of description, file and patterns. *)
Theorem handleListAvailableContexts_lists_every_rule
    (pm : PromptMatcher) (w : World) :
  exists txt,
    outcome (handleListAvailableContexts pm) w
    = Returned {| Tool.content := [ {| Tool.type := "text"; Tool.text := txt |} ];
                  Tool.isError := None |} /\
    forall r, In r (rules pm) ->
      substring_of ("**" +:+ description r +:+ "**") txt /\
      substring_of ("File: " +:+ promptFile r) txt /\
      substring_of ("Patterns: " +:+ String.concat ", " (patterns r)) txt.
Proof.
  eexists. split; [reflexivity|]. intros r Hr.
  assert (Hin : forall x, substring_of x (contextListBlock r) ->
            substring_of x
              ("Available Context Prompts:" +:+ newline +:+ newline
               +:+ String.concat newline
                     (map contextListBlock (getAllRules pm)))).
  { intros x Hx. do 3 apply substring_of_app_r.
    eapply substring_of_trans; [exact Hx|].
    apply substring_of_concat, in_map, Hr. }
  unfold contextListBlock in Hin. repeat split; apply Hin.
  - found_between ""
      (newline +:+ ("File: " +:+ promptFile r +:+ newline)
       +:+ ("Patterns: " +:+ String.concat ", " (patterns r) +:+ newline)).
  - found_between ("**" +:+ description r +:+ "**" +:+ newline)
      (newline
       +:+ ("Patterns: " +:+ String.concat ", " (patterns r) +:+ newline)).
  - found_between (("**" +:+ description r +:+ "**" +:+ newline)
                   +:+ ("File: " +:+ promptFile r +:+ newline))
      newline.
Qed.

(** ** The resource handlers *)


(** X16: [resources/read] rejects exactly the URIs that do not start with
    [prompt://]: for those it throws ["Unsupported URI scheme: <uri>"],
    whatever the file system holds, and for no other URI does it throw that
    error: what it throws for a URI that starts with [prompt://] has a
    message that starts with ["Failed to read resource "]. *)
Theorem readResourceHandler_scheme_check
    (pm : PromptMatcher) (request_uri : string) (w : World) :
  (startsWith request_uri "prompt://" = false ->
   outcome (readResourceHandler pm request_uri) w
   = Thrown (new_Error ("Unsupported URI scheme: " +:+ request_uri))) /\
  (startsWith request_uri "prompt://" = true ->
   forall e, outcome (readResourceHandler pm request_uri) w = Thrown e ->
             startsWith (err_message e) "Failed to read resource " = true).
Proof.
  split.
  - intros H. unfold outcome, readResourceHandler. now rewrite H.
  - intros H e. apply startsWith_spec in H as [suffix ->].
    rewrite readResourceHandler_outcome.
    destruct (readResult w _) as [e'|t]; [|discriminate].
    intros [= <-]. reflexivity.
Qed.

(** ** The handler of the streamable-HTTP server *)

Section StreamableHttpFacts.

Variable toLowerCase : string -> string.

(** X17: the handler of the streamable-HTTP server never fails and never
    sets [isError]. For a query that is empty or white space only (any run
    of the white space and line terminator characters of ECMAScript, which
    [trim] removes) it answers
    ["Error: Query parameter is required and cannot be empty."] without
    calling the engine: nothing is read or written. For any other
    query it gives the reply of [handleGetContextForQuery], or, when that
    throws an error, the text ["Error processing query: "] followed by the
    message of the error. *)
Theorem streamable_handleGetContextForQuery_total
    (pm : PromptMatcher) (Q : string) (w : World) :
  (whitespaceOnly Q = true ->
   StreamableHttp.handleGetContextForQuery toLowerCase pm Q w
   = (Returned
        {| Tool.content :=
             [ {| Tool.type := "text";
                  Tool.text :=
                    "Error: Query parameter is required and cannot be empty." |} ];
           Tool.isError := None |}, w)) /\
  (whitespaceOnly Q = false ->
   outcome (StreamableHttp.handleGetContextForQuery toLowerCase pm Q) w
   = match outcome (handleGetContextForQuery toLowerCase pm Q) w with
     | Returned res => Returned res
     | Thrown e =>
         Returned
           {| Tool.content :=
                [ {| Tool.type := "text";
                     Tool.text := "Error processing query: "
                                  +:+ err_message e |} ];
              Tool.isError := None |}
     end) /\
  exists res,
    outcome (StreamableHttp.handleGetContextForQuery toLowerCase pm Q) w
    = Returned res /\ Tool.isError res = None.
Proof.
  unfold StreamableHttp.handleGetContextForQuery.
  destruct (whitespaceOnly Q) eqn:Ews.
  - assert (E : String.eqb Q "" || (String.length (trim Q) =? 0) = true).
    { apply orb_true_iff. right. apply Nat.eqb_eq. now apply trim_empty. }
    rewrite E. split; [reflexivity|]. split; [discriminate|].
    eexists. split; reflexivity.
  - assert (E : String.eqb Q "" || (String.length (trim Q) =? 0) = false).
    { apply orb_false_iff. split.
      - apply String.eqb_neq. intros ->. discriminate.
      - apply Nat.eqb_neq. intros H. apply trim_empty in H. congruence. }
    rewrite E. split; [discriminate|].
    pose proof (handleGetContextForQuery_outcome toLowerCase pm Q w) as Hh.
    unfold outcome, try_catch, ret in *.
    destruct (handleGetContextForQuery toLowerCase pm Q w) as [[res|e] w1];
      simpl in *.
    + split; [reflexivity|]. exists res. split; [reflexivity|].
      destruct (fst (getContextForQuery toLowerCase pm Q w)) as [ctx|e'];
        [|discriminate].
      destruct (rule ctx), (content ctx), (matchFound ctx);
        injection Hh as ->; reflexivity.
    + split; [reflexivity|]. eexists. split; reflexivity.
Qed.

End StreamableHttpFacts.

(** ** The log levels *)

Section LoggerLevelFacts.

Variable toUpperCase : string -> string.

(** X18: what the logger of the server writes. Whatever [LOG_LEVEL] holds,
    error messages are written; debug messages are written exactly when
    [LOG_LEVEL] is set and upper-cases to ["DEBUG"]; and unless it
    upper-cases to ["DEBUG"], ["WARN"] or ["ERROR"] the level is [INFO],
    which writes info, warning and error messages. A logger at a lower
    level writes whatever a logger at a higher level writes. *)
Theorem logger_writes_by_level (LOG_LEVEL : option string) :
  Logger.shouldLog (loggerLevel toUpperCase LOG_LEVEL) Logger.ERROR = true /\
  (Logger.shouldLog (loggerLevel toUpperCase LOG_LEVEL) Logger.DEBUG = true
   <-> option_map toUpperCase LOG_LEVEL = Some "DEBUG") /\
  (loggerLevel toUpperCase LOG_LEVEL = Logger.INFO \/
   exists l, option_map toUpperCase LOG_LEVEL = Some l /\
             In l ["DEBUG"; "WARN"; "ERROR"]) /\
  map (Logger.shouldLog Logger.INFO)
      [Logger.DEBUG; Logger.INFO; Logger.WARN; Logger.ERROR]
  = [false; true; true; true] /\
  forall verbose quiet level,
    Logger.value verbose <= Logger.value quiet ->
    Logger.shouldLog quiet level = true ->
    Logger.shouldLog verbose level = true.
Proof.
  split; [now destruct (loggerLevel toUpperCase LOG_LEVEL)|].
  split; [|split; [|split]].
  - unfold loggerLevel. destruct LOG_LEVEL as [l|]; simpl;
      [|split; discriminate].
    destruct (String.eqb (toUpperCase l) "DEBUG") eqn:E1.
    { apply String.eqb_eq in E1. now rewrite E1. }
    apply String.eqb_neq in E1.
    destruct (String.eqb (toUpperCase l) "WARN"),
      (String.eqb (toUpperCase l) "ERROR");
      (split; [discriminate | congruence]).
  - unfold loggerLevel. destruct LOG_LEVEL as [l|]; simpl; [|now left].
    destruct (String.eqb (toUpperCase l) "DEBUG") eqn:E1.
    { apply String.eqb_eq in E1. right. exists (toUpperCase l).
      split; [reflexivity | rewrite E1; simpl; auto]. }
    destruct (String.eqb (toUpperCase l) "WARN") eqn:E2.
    { apply String.eqb_eq in E2. right. exists (toUpperCase l).
      split; [reflexivity | rewrite E2; simpl; auto]. }
    destruct (String.eqb (toUpperCase l) "ERROR") eqn:E3.
    { apply String.eqb_eq in E3. right. exists (toUpperCase l).
      split; [reflexivity | rewrite E3; simpl; auto]. }
    now left.
  - reflexivity.
  - unfold Logger.shouldLog. intros verbose quiet level Hv H.
    apply Nat.leb_le in H. apply Nat.leb_le. lia.
Qed.

End LoggerLevelFacts.

(** ** Instances of the further properties *)

Lemma findBestMatch_redundant_pattern_witness :
  exists i : option nat,
    outcome (findBestMatch asciiToLowerCase PromptMatcher_new
               "secure authentication") sampleWorld
    = Returned (ruleAt (rules PromptMatcher_new) i) /\
    outcome (findBestMatch asciiToLowerCase withoutAuthentication
               "secure authentication") sampleWorld
    = Returned (ruleAt (rules withoutAuthentication) i).
Proof.
  apply (findBestMatch_redundant_pattern asciiToLowerCase
           PromptMatcher_new withoutAuthentication [] [] configuredRule
           (firstn 8 (patterns configuredRule))
           (skipn 9 (patterns configuredRule))
           "authentication" "auth").
  - reflexivity.
  - reflexivity.
  - apply in_or_app. right. left. reflexivity.
  - apply includes_spec. reflexivity.
  - reflexivity.
Defined.

Lemma findBestMatch_longer_query_witness :
  exists (i j : nat) (r' : PromptRule),
    j <= i /\
    rules sampleMatcher !! i = Some tupleRule /\
    rules sampleMatcher !! j = Some r' /\
    outcome (findBestMatch asciiToLowerCase sampleMatcher
               ("Open" +:+ "FGA" +:+ " rocks")) sampleWorld
    = Returned (Some r').
Proof.
  apply (findBestMatch_longer_query asciiToLowerCase sampleMatcher "FGA"
           ("Open" +:+ "FGA" +:+ " rocks") tupleRule sampleWorld sampleWorld).
  - vm_compute. reflexivity.
  - rewrite !asciiToLowerCase_append.
    now exists (asciiToLowerCase "Open"), (asciiToLowerCase " rocks").
Defined.

Lemma configured_matcher_triggers_witness :
  outcome (findBestMatch asciiToLowerCase PromptMatcher_new
             "Which ReBAC tuples do I need?") sampleWorld
  = Returned
      (if existsb
            (fun p => includes
                        (asciiToLowerCase "Which ReBAC tuples do I need?") p)
            triggerPatterns
       then head (rules PromptMatcher_new) else None).
Proof.
  apply (configured_matcher_triggers asciiToLowerCase
           "Which ReBAC tuples do I need?" sampleWorld).
  repeat constructor.
Defined.

Lemma getContextForQuery_match_content_witness :
  exists (r : PromptRule) (t : string),
    outcome (findBestMatch asciiToLowerCase sampleMatcher
               "Is OpenFGA like Zanzibar?") sampleWorld
    = Returned (Some r) /\
    files sampleWorld !! Path.join [cwd sampleWorld; "prompts"; promptFile r]
    = Some (File t) /\
    sampleContext = {| rule := Some r; content := Some t; matchFound := true |}.
Proof.
  apply (getContextForQuery_match_content asciiToLowerCase sampleMatcher
           "Is OpenFGA like Zanzibar?" sampleWorld sampleContext).
  - vm_compute. reflexivity.
  - reflexivity.
Defined.

Lemma getContextForQuery_missing_document_witness :
  outcome (getContextForQuery asciiToLowerCase PromptMatcher_new
             "What is ReBAC?") missingWorld
  = Thrown (new_Error
              ("Error loading context: Error: Failed to load prompt file "
               +:+ promptFile configuredRule
               +:+ ": Error: ENOENT: no such file or directory, open '"
               +:+ Path.join [cwd missingWorld; "prompts";
                              promptFile configuredRule] +:+ "'")).
Proof.
  apply (getContextForQuery_missing_document asciiToLowerCase
           PromptMatcher_new "What is ReBAC?" configuredRule missingWorld).
  - vm_compute. reflexivity.
  - vm_compute. reflexivity.
Defined.

Lemma loadPromptContent_inside_without_dotdot_witness :
  exists rest,
    (rest = "" \/ startsWith rest "/" = true) /\
    ~ In ".." (Path.split rest) /\
    outcome (loadPromptContent PromptMatcher_new "/etc/passwd") passwdWorld
    = match readResult passwdWorld
              (Path.join [cwd passwdWorld; "prompts"] +:+ rest) with
      | inr t => Returned t
      | inl e => Thrown (loadError "/etc/passwd" e)
      end.
Proof.
  apply (loadPromptContent_inside_without_dotdot PromptMatcher_new
           "/etc/passwd" passwdWorld).
  intros H. cbv in H. intuition discriminate.
Defined.

Lemma loadPromptContent_reads_prompts_file_witness :
  outcome (loadPromptContent PromptMatcher_new "authorization-model.md")
          sampleWorld
  = match readResult sampleWorld
            ("/" +:+ String.concat "/"
                       (["srv"; "app"] ++ ["prompts"; "authorization-model.md"]))
    with
    | inr t => Returned t
    | inl e => Thrown (loadError "authorization-model.md" e)
    end.
Proof.
  apply (loadPromptContent_reads_prompts_file PromptMatcher_new
           ["srv"; "app"] "authorization-model.md" sampleWorld).
  - reflexivity.
  - repeat constructor; discriminate.
  - repeat constructor; discriminate.
Defined.

Lemma handleGetContextForQuery_reply_witness :
  exists txt,
    outcome (handleGetContextForQuery asciiToLowerCase sampleMatcher
               "Is OpenFGA like Zanzibar?") sampleWorld
    = Returned {| Tool.content := [ {| Tool.type := "text"; Tool.text := txt |} ];
                  Tool.isError := None |} /\
    substring_of (dquote +:+ "Is OpenFGA like Zanzibar?" +:+ dquote) txt /\
    match rule sampleContext, content sampleContext with
    | Some r, Some t =>
        (exists head, txt = head +:+ t /\
                      substring_of ("Using prompt: " +:+ description r) head)
    | _, _ =>
        forall r, In r (rules sampleMatcher) ->
          substring_of (description r) txt /\
          forall p, In p (patterns r) -> substring_of p txt
    end.
Proof.
  apply (handleGetContextForQuery_reply asciiToLowerCase sampleMatcher
           "Is OpenFGA like Zanzibar?" sampleWorld sampleContext).
  vm_compute. reflexivity.
Defined.
